(** * RogueGPT prompt engine: placeholder resolution and combinatorial expansion

    A shallow embedding of the prompt-assembly core of [app.py]
    (RogueGPT 0.9.2) together with the properties its specification
    states about it.

    Python values are embedded as follows.
    - [str] is a list of characters; the string methods [replace] and
      [split] and the regular expression used by the placeholder scanner
      are written out on that representation.
    - [dict] is an association list in insertion order whose keys are
      pairwise distinct; item assignment replaces in place or appends.
    - A list object that is mutated and shared (the default accumulator of
      [collect_keys]) lives in an explicit object store.
    - An uncaught exception is the result [None]. *)

From Stdlib Require Import String Ascii List Arith Lia Bool.
From Equations Require Import Equations.
Import ListNotations.

Local Abbreviation length := List.length.

Set Implicit Arguments.

(** ** Python strings *)

Module PyStr.

Definition str := list ascii.

(** The string literals of the source. *)
Definition lit (s : string) : str := list_ascii_of_string s.

Definition lbracket : ascii := "["%char.
Definition rbracket : ascii := "]"%char.
Definition newline : ascii := "010"%char.

Fixpoint eqb (a b : str) : bool :=
  match a, b with
  | [], [] => true
  | x :: a', y :: b' => Ascii.eqb x y && eqb a' b'
  | _, _ => false
  end.

(** [x in l] for a list of strings. *)
Fixpoint mem (x : str) (l : list str) : bool :=
  match l with
  | [] => false
  | y :: l' => eqb x y || mem x l'
  end.

(** [strip_prefix p s] is [Some r] exactly when [s = p ++ r]
    ([s.startswith(p)], with the remainder). *)
Fixpoint strip_prefix (p s : str) : option str :=
  match p, s with
  | [], _ => Some s
  | a :: p', b :: s' => if Ascii.eqb a b then strip_prefix p' s' else None
  | _ :: _, [] => None
  end.

Lemma strip_prefix_shorter p s r :
  strip_prefix p s = Some r -> length r + length p = length s.
Proof.
  revert s; induction p as [|a p IH]; intros [|b s] H; simpl in *;
    try discriminate; try (injection H as <-; simpl; lia).
  destruct (Ascii.eqb a b); [|discriminate].
  apply IH in H. lia.
Qed.

Definition inspect {A : Type} (a : A) : {b : A | a = b} := exist _ a eq_refl.

(** [s.replace(old, new)] for a non-empty [old = o :: old']: the
    occurrences of [old] are found from left to right without overlap and
    each is replaced by [new]. *)
Equations? replace_scan (o : ascii) (old' new s : str) : str
  by wf (length s) lt :=
  replace_scan o old' new [] := [];
  replace_scan o old' new (c :: s')
    with inspect (strip_prefix (o :: old') (c :: s')) := {
    | exist _ (Some rest) Hm := new ++ replace_scan o old' new rest;
    | exist _ None _ := c :: replace_scan o old' new s' }.
Proof.
  pose proof (strip_prefix_shorter (o :: old') (c :: s') Hm) as Hlen.
  simpl in Hlen. lia.
Qed.

(** With an empty [old], Python inserts [new] before every character and
    at the end. *)
Fixpoint intersperse (new s : str) : str :=
  match s with
  | [] => new
  | c :: s' => new ++ c :: intersperse new s'
  end.

Definition replace (old new s : str) : str :=
  match old with
  | [] => intersperse new s
  | o :: old' => replace_scan o old' new s
  end.

(** [s.split(sep)] for a one-character separator. *)
Fixpoint split (sep : ascii) (s : str) : list str :=
  match s with
  | [] => [[]]
  | c :: s' =>
      if Ascii.eqb c sep then [] :: split sep s'
      else match split sep s' with
           | [] => [[c]]
           | w :: ws => (c :: w) :: ws
           end
  end.

(** The f-string [f"[[{key}]]"]. *)
Definition placeholder_key (key : str) : str :=
  lbracket :: lbracket :: key ++ [rbracket; rbracket].

End PyStr.

Import PyStr.

Notation "s# x" := (lit x%string) (at level 1, format "s# x").

(** ** The placeholder pattern

    [re.findall(r"\[\[(.*?)\]\]", s)]: the matches are found from left to
    right without overlap and the text of the one group is returned for each.
    The dot matches any character except a line break (the pattern is
    compiled without [re.DOTALL]). *)

Module Re.

(** [(.*?)\]\]] at the head of [s]: the lazy group takes as few characters
    as possible, so the closing brackets are tried before another dot. *)
Fixpoint lazy_group (s : str) : option (str * str) :=
  match strip_prefix [rbracket; rbracket] s with
  | Some rest => Some ([], rest)
  | None =>
      match s with
      | [] => None
      | c :: s' =>
          if Ascii.eqb c newline then None
          else match lazy_group s' with
               | Some (g, rest) => Some (c :: g, rest)
               | None => None
               end
      end
  end.

(** The whole pattern anchored at the head of [s]: the group and what
    follows the match. *)
Definition match_at (s : str) : option (str * str) :=
  match strip_prefix [lbracket; lbracket] s with
  | Some r => lazy_group r
  | None => None
  end.

Lemma lazy_group_shorter s g rest :
  lazy_group s = Some (g, rest) -> length rest < length s.
Proof.
  revert g rest; induction s as [|c s IH]; intros g rest H.
  - discriminate.
  - cbn [lazy_group] in H.
    destruct (strip_prefix [rbracket; rbracket] (c :: s)) as [r|] eqn:E.
    + injection H as <- <-. apply strip_prefix_shorter in E. simpl in *. lia.
    + destruct (Ascii.eqb c newline); [discriminate|].
      destruct (lazy_group s) as [[g' r']|]; [|discriminate].
      injection H as <- <-. specialize (IH _ _ eq_refl). simpl. lia.
Qed.

Lemma match_at_shorter s g rest :
  match_at s = Some (g, rest) -> length rest < length s.
Proof.
  unfold match_at. destruct (strip_prefix _ s) as [r|] eqn:E; [|discriminate].
  intros H. apply lazy_group_shorter in H. apply strip_prefix_shorter in E.
  simpl in E. lia.
Qed.

Equations? findall (s : str) : list str by wf (length s) lt :=
  findall [] := [];
  findall (c :: s') with inspect (match_at (c :: s')) := {
    | exist _ (Some (g, rest)) Hm := g :: findall rest;
    | exist _ None _ := findall s' }.
Proof.
  pose proof (match_at_shorter (c :: s') Hm) as Hlen. simpl in Hlen. lia.
Qed.

End Re.

(** ** Python dictionaries *)

Module PyDict.

Section Dict.

Variable V : Type.

(** The items in insertion order. *)
Definition dict := list (str * V).

Definition keys (d : dict) : list str := map fst d.

Definition values (d : dict) : list V := map snd d.

(** [d[k]]; [None] is the [KeyError]. *)
Fixpoint getitem (k : str) (d : dict) : option V :=
  match d with
  | [] => None
  | (k', v) :: d' => if eqb k k' then Some v else getitem k d'
  end.

(** [d[k] = v]: an existing key keeps its place, a new one goes last. *)
Fixpoint setitem (k : str) (v : V) (d : dict) : dict :=
  match d with
  | [] => [(k, v)]
  | (k', v') :: d' =>
      if eqb k k' then (k', v) :: d' else (k', v') :: setitem k v d'
  end.

(** [d.update(items)]. *)
Definition update (d : dict) (items : list (str * V)) : dict :=
  fold_left (fun acc kv => setitem (fst kv) (snd kv) acc) items d.

(** [dict(items)]. *)
Definition of_items (items : list (str * V)) : dict := update [] items.

End Dict.

End PyDict.

(** ** itertools *)

Module Itertools.

(** [itertools.product( *pools)]: the rightmost pool advances fastest. *)
Fixpoint product (A : Type) (pools : list (list A)) : list (list A) :=
  match pools with
  | [] => [[]]
  | pool :: rest =>
      flat_map (fun x => map (cons x) (product rest)) pool
  end.

(** [itertools.product(xs, ys)] for two pools of different element type. *)
Definition product2 (A B : Type) (xs : list A) (ys : list B) : list (A * B) :=
  flat_map (fun x => map (pair x) ys) xs.

End Itertools.

Import Re PyDict Itertools.

(** ** The functions of app.py *)

Module App.

(** *** Data *)

(** A value of the ["Components"] document: a list of option values or a
    dictionary of further values ([isinstance(value, list)] and
    [isinstance(value, dict)] in the source). *)
#[local] Unset Elimination Schemes.

Inductive component : Type :=
| Options (values : list str)
| Nested (entries : list (str * component)).

#[local] Set Elimination Schemes.

(** A value of [user_selections]: the one string a [selectbox] returned or
    the list a [multiselect] or a text area gave. *)
Inductive selection : Type :=
| Single (s : str)
| Many (l : list str).

(** What [for x in value] ranges over: the items of a list, the characters
    of a string. *)
Definition iter_selection (v : selection) : list str :=
  match v with
  | Many l => l
  | Single s => map (fun c => [c]) s
  end.

(** A retrieved news article. *)
Record article : Type := Article {
  title : str;
  description : str;
  url : str
}.

(** *** collect_keys

    A [for] loop whose body appends to the accumulator and may raise: the
    accumulator after the loop and whether the loop ran to its end. *)
Definition for_each (X : Type) (body : X -> list str -> list str * bool)
  : list X -> list str -> list str * bool :=
  fix loop (xs : list X) (acc : list str) {struct xs} : list str * bool :=
    match xs with
    | [] => (acc, true)
    | x :: xs' =>
        match body x acc with
        | (acc', true) => loop xs' acc'
        | (acc', false) => (acc', false)
        end
    end.

(** The body of [collect_keys] on the contents of its accumulator: the
    contents after the call, and whether the call returned ([false] is the
    [AttributeError] of [.items()] on a list, raised after the keys met so
    far were appended). [value[sub_key]] is the value stored with
    [sub_key], the keys of a dictionary being distinct. This is the walk
    on a stack that has room for it; [collect_keys_body_within] below is
    the walk on a bounded stack, with the interpreter's [RecursionError],
    and agrees with this one as long as the nesting fits the stack. *)
Fixpoint collect_keys_body (component_dict : component)
  (collected_keys : list str) {struct component_dict} : list str * bool :=
  match component_dict with
  | Options _ => (collected_keys, false)
  | Nested entries =>
      for_each
        (fun kv acc =>
           let acc := acc ++ [fst kv] in
           match snd kv with
           | Nested value =>
               for_each (fun sv acc => collect_keys_body (snd sv) acc)
                 value acc
           | Options _ => (acc, true)
           end)
        entries collected_keys
  end.

(** The list objects of the interpreter, by address. *)
Definition store := nat -> list str.

Definition load (a : nat) (h : store) : list str := h a.

Definition store_at (a : nat) (v : list str) (h : store) : store :=
  fun b => if Nat.eqb b a then v else h b.

(** The list created once, when [def collect_keys(..., collected_keys=[])]
    is executed; every call that leaves the argument out works on it. *)
Definition collected_keys_default : nat := 0.

(** The store right after the [def] statement. *)
Definition store_after_def : store := fun _ => [].

(** [collect_keys(component_dict, collected_keys)]: appends in place to the
    list object at [collected_keys] and returns that same object. *)
Definition collect_keys (component_dict : component) (collected_keys : nat)
  (h : store) : store * option nat :=
  let '(acc, returned) :=
    collect_keys_body component_dict (load collected_keys h) in
  (store_at collected_keys acc h,
   if returned then Some collected_keys else None).

(** [all_possible_keys += more]: extends the list object in place. *)
Definition extend (a : nat) (more : list str) (h : store) : store :=
  store_at a (load a h ++ more) h.

(** *** render_ui

    The operator in front of the form: what each widget, named by its
    [key], returns for the options or the default it is given. *)
Record operator : Type := Operator {
  selectbox : str -> list str -> option str;
  multiselect : str -> list str -> list str;
  text_area : str -> str;
  checkbox : str -> bool;
  button : str -> bool
}.

Section RenderUi.

Variable ui : operator.
Variable key_prefix : str.

(** The inner loop over [nested_dict.items()]: a list is offered in a
    multiselect, any other value is passed over. [render_nested] and
    [render_ui] give the selections built when every widget is drawn;
    [render_nested_checked] and [render_ui_checked] below follow the keys
    of the widgets as well and raise where a key is asked for twice. *)
Definition render_nested (key : str) (nested_dict : list (str * component))
  (user_selections : dict selection) : dict selection :=
  fold_left
    (fun sel nkv =>
       match snd nkv with
       | Options nested_value =>
           setitem (fst nkv)
             (Many (multiselect ui
                      (key_prefix ++ s#"multiselect-" ++ key ++ s#"-" ++ fst nkv)
                      nested_value))
             sel
       | Nested _ => sel
       end)
    nested_dict user_selections.

Definition render_ui (component_dict : list (str * component))
  : option (dict selection) :=
  fold_left
    (fun acc kv =>
       match acc with
       | None => None
       | Some user_selections =>
           let key := fst kv in
           match snd kv with
           | Nested value =>
               match selectbox ui (key_prefix ++ s#"selectbox-" ++ key)
                       (keys value) with
               | None => None
               | Some selected_option =>
                   let user_selections :=
                     setitem key (Single selected_option) user_selections in
                   match getitem selected_option value with
                   | Some (Nested nested_dict) =>
                       Some (render_nested key nested_dict user_selections)
                   | Some (Options _) => None
                   | None => None
                   end
               end
           | Options value =>
               Some (setitem key
                       (Many (multiselect ui
                                (key_prefix ++ s#"multiselect-" ++ key) value))
                       user_selections)
           end
       end)
    component_dict (Some []).

End RenderUi.

(** *** fix_structure *)

Definition fix_structure (selections : dict selection) : dict selection :=
  fold_left
    (fun corrected_selections kv =>
       match snd kv with
       | Many l => setitem (fst kv) (Many l) corrected_selections
       | Single s => setitem (fst kv) (Many [s]) corrected_selections
       end)
    selections [].

(** *** Placeholder scanner *)

(** [[ph for ph in placeholders if ph not in all_possible_keys]]. *)
Definition uncovered (all_possible_keys placeholders : list str) : list str :=
  filter (fun ph => negb (mem ph all_possible_keys)) placeholders.

Definition uncovered_placeholders (all_possible_keys : list str)
  (template : str) : list str :=
  uncovered all_possible_keys (findall template).

(** The loop that asks for the values of each uncovered placeholder, one per
    line of a text area. These are the selections built when every text
    area is drawn; [ask_uncovered_checked] below follows the keys of the
    text areas as well and raises where a key is asked for twice. *)
Definition ask_uncovered (ui : operator) (area_prefix : str)
  (uncovered_placeholders : list str) (user_selections : dict selection)
  : dict selection :=
  fold_left
    (fun sel placeholder =>
       setitem placeholder
         (Many (split newline (text_area ui (area_prefix ++ placeholder))))
         sel)
    uncovered_placeholders user_selections.

(** *** Combination expander *)

(** [keys, values = zip( *iter_selections.items())]; unpacking the empty
    sequence that an empty dictionary gives raises [ValueError]. *)
Definition unzip_items (iter_selections : dict selection)
  : option (list str * list selection) :=
  match iter_selections with
  | [] => None
  | _ :: _ => Some (keys iter_selections, values iter_selections)
  end.

(** [[dict(zip(keys, v)) for v in itertools.product( *values)]]. *)
Definition combinations (iter_selections : dict selection)
  : option (list (dict str)) :=
  match unzip_items iter_selections with
  | None => None
  | Some (keys, values) =>
      Some (map (fun v => of_items (combine keys v))
              (product (map iter_selection values)))
  end.

(** *** External-record merger *)

(** The dictionary literal of [articles_to_placeholder]. *)
Definition article_placeholders (a : article) : dict str :=
  [(s#"SourceArticleTitle", title a);
   (s#"SourceArticleDescription", description a);
   (s#"SourceArticleUrl", url a)].

Definition articles_to_placeholder (articles : list article)
  : list (dict str) :=
  map article_placeholders articles.

(** [[dict(el[0], **el[1]) for el in itertools.product(combinations,
    news_articles)]]. *)
Definition merge_articles (combinations news_articles : list (dict str))
  : list (dict str) :=
  map (fun el => update (fst el) (snd el)) (product2 combinations news_articles).

(** The two lines 496-497: the merge runs whenever the prompts are based on
    real news. *)
Definition merge_step (based_on_real_news : bool)
  (combinations news_articles : list (dict str)) : list (dict str) :=
  if based_on_real_news then merge_articles combinations news_articles
  else combinations.

(** *** Template substitution *)

(** The inner loop of the generation loop: one [replace] per item of the
    combination, in its order. *)
Definition prompt_filled (prompt_template : str) (combination : dict str)
  : str :=
  fold_left
    (fun filled kv => replace (placeholder_key (fst kv)) (snd kv) filled)
    combination prompt_template.

(** *** The two generation forms

    The configuration document [prompt_engine.json], as far as the prompt
    engine reads it. *)
Record config : Type := Config {
  PromptTemplate : str;
  PromptTemplateForNewsBased : str;
  Components : list (str * component);
  TrendsSource : list str;
  TopicList : list str
}.

(** What the retrieval adapters answer during one run. *)
Record providers : Type := Providers {
  get_google_trends : list str;
  get_reddit_headlines : list str;
  get_news : str -> str -> option article
}.

(** The prompt preview of [automatic_news_generation_ui] (lines 260-267):
    [prompt.replace] is handed the selection itself when it is an empty
    list, which raises [TypeError]. *)
Definition prompt_preview (prompt_template : str)
  (user_selections : dict selection) : option str :=
  fold_left
    (fun acc kv =>
       match acc with
       | None => None
       | Some prompt =>
           match snd kv with
           | Many (selection_text :: _) | Single selection_text =>
               Some (replace (placeholder_key (fst kv)) selection_text prompt)
           | Many [] => None
           end
       end)
    user_selections (Some prompt_template).

(** One run of [automatic_news_generation_ui]: the filled prompts handed to
    the generator, in order (none when "Generate" is not pressed), the
    generator and the database answering every call. The value of the
    "Prompt Template" text field is [user_prompt_template]. *)
Definition automatic_news_generation_ui (data : config) (ui : operator)
  (user_prompt_template : str) (h : store) : store * option (list str) :=
  let prompt_template := PromptTemplate data in
  let components := Components data in
  match collect_keys (Nested components) collected_keys_default h with
  | (h, None) => (h, None)
  | (h, Some all_possible_keys) =>
      let placeholders := findall prompt_template in
      let uncovered_placeholders :=
        uncovered (load all_possible_keys h) placeholders in
      match render_ui ui [] components with
      | None => (h, None)
      | Some user_selections =>
          let user_selections :=
            ask_uncovered ui s#"placeholder_" uncovered_placeholders
              user_selections in
          match prompt_preview prompt_template user_selections with
          | None => (h, None)
          | Some _ =>
              if button ui s#"Generate" then
                let iter_selections := fix_structure user_selections in
                match combinations iter_selections with
                | None => (h, None)
                | Some combinations =>
                    (h, Some (map (prompt_filled prompt_template)
                                combinations))
                end
              else (h, Some [])
          end
      end
  end.

Definition get_trends (env : providers) (news_source : option str)
  : list str :=
  match news_source with
  | Some src =>
      if eqb s#"Google Trends" src then get_google_trends env
      else if eqb s#"Reddit" src then get_reddit_headlines env
      else []
  | None => []
  end.

(** [user_selections["ISOLanguage"][0]]. *)
Definition iso_language (user_selections : dict selection) : option str :=
  match getitem s#"ISOLanguage" user_selections with
  | Some (Many (lang :: _)) => Some lang
  | Some (Single (c :: _)) => Some [c]
  | _ => None
  end.

(** The retrieval loop (lines 458-462): one article per trend for which the
    provider has one. *)
Fixpoint retrieve_news (env : providers) (user_selections : dict selection)
  (trends_list : list str) : option (list article) :=
  match trends_list with
  | [] => Some []
  | news_keyword :: rest =>
      match iso_language user_selections with
      | None => None
      | Some lang =>
          match retrieve_news env user_selections rest with
          | None => None
          | Some news_articles =>
              Some (match get_news env news_keyword lang with
                    | Some news => news :: news_articles
                    | None => news_articles
                    end)
          end
      end
  end.

Definition NEWS_ID_PREFIX : str := s#"automated_news".

(** One run of [news_from_trends_ui], in the same sense. *)
Definition news_from_trends_ui (data : config) (ui : operator)
  (env : providers) (user_prompt_template : str) (h : store)
  : store * option (list str) :=
  let components := Components data in
  match collect_keys (Nested components) collected_keys_default h with
  | (h, None) => (h, None)
  | (h, Some all_possible_keys) =>
      let h := extend all_possible_keys [s#"SeedPhrase"] h in
      let h :=
        extend all_possible_keys
          [s#"SourceArticleTitle"; s#"SourceArticleDescription";
           s#"SourceArticleUrl"] h in
      match render_ui ui NEWS_ID_PREFIX components with
      | None => (h, None)
      | Some user_selections =>
          let automated_trends :=
            checkbox ui (NEWS_ID_PREFIX ++ s#"_automated_trends") in
          let selected_trends_source :=
            selectbox ui (NEWS_ID_PREFIX ++ s#"trends_source")
              (TrendsSource data) in
          let trends_list :=
            if automated_trends then []
            else multiselect ui (NEWS_ID_PREFIX ++ s#"_selected_topics")
                   (TopicList data) in
          let based_on_real_news :=
            checkbox ui (NEWS_ID_PREFIX ++ s#"_based_on_real_news") in
          let prompt_template :=
            if based_on_real_news then PromptTemplateForNewsBased data
            else PromptTemplate data in
          let placeholders := findall user_prompt_template in
          let uncovered_placeholders :=
            uncovered (load all_possible_keys h) placeholders in
          let user_selections :=
            ask_uncovered ui (NEWS_ID_PREFIX ++ s#"_placeholder_")
              uncovered_placeholders user_selections in
          if button ui (NEWS_ID_PREFIX ++ s#"_generate_button") then
            let trends_list :=
              if automated_trends then get_trends env selected_trends_source
              else trends_list in
            match
              (if based_on_real_news
               then retrieve_news env user_selections trends_list
               else Some [])
            with
            | None => (h, None)
            | Some news_articles =>
                let news_articles := articles_to_placeholder news_articles in
                let iter_selections := fix_structure user_selections in
                let iter_selections :=
                  setitem s#"SeedPhrase" (Many trends_list) iter_selections in
                match combinations iter_selections with
                | None => (h, None)
                | Some combinations =>
                    let combinations :=
                      merge_step based_on_real_news combinations
                        news_articles in
                    (h, Some (map (prompt_filled prompt_template)
                                combinations))
                end
            end
          else (h, Some [])
      end
  end.

(** The script from top to bottom: the [def] of [collect_keys], then the
    news form, then the generation form; an exception in a form ends the
    run. The prompts of both forms. *)
Definition script (data : config) (ui : operator) (env : providers)
  (news_prompt_template generator_prompt_template : str)
  : option (list str * list str) :=
  match news_from_trends_ui data ui env news_prompt_template store_after_def
  with
  | (_, None) => None
  | (h, Some news_prompts) =>
      match automatic_news_generation_ui data ui generator_prompt_template h
      with
      | (_, None) => None
      | (_, Some generator_prompts) => Some (news_prompts, generator_prompts)
      end
  end.

(** *** The saved record

    A value of a saved record: the values of a combination are strings, the
    provenance fields added to it are strings, a flag, a date or [None]. *)
Inductive field : Type :=
| FStr (s : str)
| FBool (b : bool)
| FDate (t : nat)
| FNone.

(** The result of a selectbox as a value of the record. *)
Definition field_of_choice (choice : option str) : field :=
  match choice with
  | Some s => FStr s
  | None => FNone
  end.

(** The combination after the seven item assignments that end an iteration
    of the generation loop (lines 312-318 and 517-523), as it is handed to
    [save_fragment]. The identifier, the generated text and the date come
    from outside. *)
Definition machine_fragment (combination : dict str)
  (fragment_id generated_fragment : str) (user_generator_model : option str)
  (prompt_filled : str) (is_fake : bool) (today : nat) : dict field :=
  let combination : dict field :=
    map (fun kv => (fst kv, FStr (snd kv))) combination in
  let combination := setitem s#"FragmentID" (FStr fragment_id) combination in
  let combination :=
    setitem s#"Content" (FStr generated_fragment) combination in
  let combination := setitem s#"Origin" (FStr s#"Machine") combination in
  let combination :=
    setitem s#"MachineModel" (field_of_choice user_generator_model)
      combination in
  let combination :=
    setitem s#"MachinePrompt" (FStr prompt_filled) combination in
  let combination := setitem s#"IsFake" (FBool is_fake) combination in
  setitem s#"CreationDate" (FDate today) combination.

(** *** The interpreter's stack

    [collect_keys] calls itself once per variant met, and the interpreter
    ends a chain of calls that nests deeper than its recursion limit with
    [RecursionError]. [frames] is the number of activations of
    [collect_keys], one inside the other, that the interpreter still lets
    run. As in [collect_keys_body], [false] is a raise, after the keys met
    so far were appended: the [RecursionError] of an activation that may
    not run, or the [AttributeError] of [.items()] on a list. *)
Fixpoint collect_keys_body_within (frames : nat) (component_dict : component)
  (collected_keys : list str) {struct frames} : list str * bool :=
  match frames with
  | 0 => (collected_keys, false)
  | S frames' =>
      match component_dict with
      | Options _ => (collected_keys, false)
      | Nested entries =>
          for_each
            (fun kv acc =>
               let acc := acc ++ [fst kv] in
               match snd kv with
               | Nested value =>
                   for_each
                     (fun sv acc =>
                        collect_keys_body_within frames' (snd sv) acc)
                     value acc
               | Options _ => (acc, true)
               end)
            entries collected_keys
      end
  end.

(** [collect_keys(component_dict, collected_keys)] where the interpreter
    lets [frames] nested activations run. *)
Definition collect_keys_within (frames : nat) (component_dict : component)
  (collected_keys : nat) (h : store) : store * option nat :=
  let '(acc, returned) :=
    collect_keys_body_within frames component_dict (load collected_keys h) in
  (store_at collected_keys acc h,
   if returned then Some collected_keys else None).

(** *** The widget keys of a run

    Streamlit keeps the keys of the widgets drawn so far in a run and
    raises its duplicate-key error when a widget is given a key that is
    already in use. [register key used] is the list of keys in use once the
    widget is drawn, [None] the raise. *)
Definition register (key : str) (used : list str) : option (list str) :=
  if mem key used then None else Some (key :: used).

(** The inner loop of [render_ui], the keys of its multiselects
    registered. *)
Definition render_nested_checked (ui : operator) (key_prefix key : str)
  (nested_dict : list (str * component)) (user_selections : dict selection)
  (used : list str) : option (dict selection * list str) :=
  fold_left
    (fun acc nkv =>
       match acc with
       | None => None
       | Some (sel, used) =>
           match snd nkv with
           | Options nested_value =>
               let widget_key :=
                 key_prefix ++ s#"multiselect-" ++ key ++ s#"-" ++ fst nkv in
               match register widget_key used with
               | None => None
               | Some used =>
                   Some (setitem (fst nkv)
                           (Many (multiselect ui widget_key nested_value))
                           sel,
                         used)
               end
           | Nested _ => Some (sel, used)
           end
       end)
    nested_dict (Some (user_selections, used)).

(** [render_ui], the keys of its widgets registered in the order in which
    the widgets are drawn: the selections, and the keys in use after the
    call. *)
Definition render_ui_checked (ui : operator) (key_prefix : str)
  (component_dict : list (str * component)) (used : list str)
  : option (dict selection * list str) :=
  fold_left
    (fun acc kv =>
       match acc with
       | None => None
       | Some (user_selections, used) =>
           let key := fst kv in
           match snd kv with
           | Nested value =>
               let widget_key := key_prefix ++ s#"selectbox-" ++ key in
               match register widget_key used with
               | None => None
               | Some used =>
                   match selectbox ui widget_key (keys value) with
                   | None => None
                   | Some selected_option =>
                       let user_selections :=
                         setitem key (Single selected_option)
                           user_selections in
                       match getitem selected_option value with
                       | Some (Nested nested_dict) =>
                           render_nested_checked ui key_prefix key
                             nested_dict user_selections used
                       | Some (Options _) => None
                       | None => None
                       end
                   end
               end
           | Options value =>
               let widget_key := key_prefix ++ s#"multiselect-" ++ key in
               match register widget_key used with
               | None => None
               | Some used =>
                   Some (setitem key
                           (Many (multiselect ui widget_key value))
                           user_selections,
                         used)
               end
           end
       end)
    component_dict (Some ([], used)).

(** The loop over the uncovered placeholders, the keys of its text areas
    registered: a placeholder met a second time asks for a text area under
    the key of the first. *)
Definition ask_uncovered_checked (ui : operator) (area_prefix : str)
  (uncovered_placeholders : list str) (user_selections : dict selection)
  (used : list str) : option (dict selection * list str) :=
  fold_left
    (fun acc placeholder =>
       match acc with
       | None => None
       | Some (sel, used) =>
           let widget_key := area_prefix ++ placeholder in
           match register widget_key used with
           | None => None
           | Some used =>
               Some (setitem placeholder
                       (Many (split newline (text_area ui widget_key)))
                       sel,
                     used)
           end
       end)
    uncovered_placeholders (Some (user_selections, used)).

End App.

Import App.

(** ** Vocabulary of the specification *)

Module Spec.

(** [has c s]: the character [c] occurs in [s]. *)
Definition has (c : ascii) (s : str) : bool := existsb (Ascii.eqb c) s.

(** The keys of a dictionary are pairwise distinct. *)
Fixpoint distinct (l : list str) : bool :=
  match l with
  | [] => true
  | x :: l' => negb (mem x l') && distinct l'
  end.

(** *** Templates as text and placeholder tokens *)

Inductive piece : Type :=
| Text (s : str)
| Hole (name : str).

Definition render_piece (p : piece) : str :=
  match p with
  | Text s => s
  | Hole name => placeholder_key name
  end.

Fixpoint render (pieces : list piece) : str :=
  match pieces with
  | [] => []
  | p :: rest => render_piece p ++ render rest
  end.

Definition holes (pieces : list piece) : list str :=
  flat_map (fun p => match p with Text _ => [] | Hole name => [name] end)
    pieces.

(** Literal text holds no opening bracket; a name holds no bracket. *)
Definition piece_ok (p : piece) : bool :=
  match p with
  | Text s => negb (has lbracket s)
  | Hole name => negb (has lbracket name) && negb (has rbracket name)
  end.

(** A piece in one line: its name, if it is a token, holds no line
    break. *)
Definition one_line (p : piece) : bool :=
  match p with
  | Text _ => true
  | Hole name => negb (has newline name)
  end.

(** A key holds no closing bracket and a value no opening bracket. *)
Definition item_ok (kv : str * str) : bool :=
  negb (has rbracket (fst kv)) && negb (has lbracket (snd kv)).

(** A name or key without any bracket. *)
Definition bracket_free (s : str) : bool :=
  negb (has lbracket s) && negb (has rbracket s).

(** What the specification asks of a token: a hole whose name is a key of
    the combination becomes the value, everything else stays. *)
Definition fill (combination : dict str) (p : piece) : piece :=
  match p with
  | Text s => Text s
  | Hole name =>
      match getitem name combination with
      | Some v => Text v
      | None => Hole name
      end
  end.

(** *** Tokens of the scanner *)

(** [closes_first n]: the two closing brackets that follow [n] are the
    first ones, so that [n] is the shortest name. *)
Definition closes_first (n : str) : Prop :=
  forall a b, n ++ [rbracket] <> a ++ rbracket :: rbracket :: b.

(** The specification's token: [t] starts with [[[n]]] for the shortest
    [n]; [r] is what follows. *)
Definition spec_token (t n r : str) : Prop :=
  t = placeholder_key n ++ r /\ closes_first n.

(** The token on one line: the name holds no line break. *)
Definition line_token (t n r : str) : Prop :=
  spec_token t n r /\ ~ In newline n.

(** Reading a template from left to right: where a token starts it is
    taken whole, elsewhere one character is passed over. *)
Inductive scans (token : str -> str -> str -> Prop)
  : str -> list str -> Prop :=
| scans_end : scans token [] []
| scans_take t n r names :
    token t n r -> scans token r names -> scans token t (n :: names)
| scans_pass c t names :
    (forall n r, ~ token (c :: t) n r) ->
    scans token t names -> scans token (c :: t) names.

(** [unknown] is [found] without the names of [known], the rest in place. *)
Inductive keeps_unknown (known : list str)
  : list str -> list str -> Prop :=
| keeps_nil : keeps_unknown known [] []
| keeps_known x found unknown :
    In x known -> keeps_unknown known found unknown ->
    keeps_unknown known (x :: found) unknown
| keeps_new x found unknown :
    ~ In x known -> keeps_unknown known found unknown ->
    keeps_unknown known (x :: found) (x :: unknown).

(** *** Normal form of a selection *)

Definition normal (v : selection) : selection :=
  match v with
  | Many l => Many l
  | Single s => Many [s]
  end.

Definition normal_item (kv : str * selection) : str * selection :=
  (fst kv, normal (snd kv)).

Definition is_many (v : selection) : bool :=
  match v with
  | Many _ => true
  | Single _ => false
  end.

(** *** Option taxonomies *)

(** The dictionaries alternate: the values of a category dictionary are
    lists or variant dictionaries, and the values of a variant dictionary are
    category dictionaries again. *)
Fixpoint well_nested (c : component) : bool :=
  match c with
  | Options _ => false
  | Nested entries =>
      forallb
        (fun kv =>
           match snd kv with
           | Options _ => true
           | Nested subs => forallb (fun sv => well_nested (snd sv)) subs
           end)
        entries
  end.

(** The category names of every level, in document order. *)
Fixpoint taxonomy_keys (c : component) : list str :=
  match c with
  | Options _ => []
  | Nested entries =>
      flat_map
        (fun kv =>
           fst kv ::
           match snd kv with
           | Options _ => []
           | Nested subs => flat_map (fun sv => taxonomy_keys (snd sv)) subs
           end)
        entries
  end.


(** A taxonomy with [2 * n + 1] dictionary levels: the specification's two
    levels are [n = 1]. *)
Fixpoint tower (n : nat) : component :=
  match n with
  | 0 => Nested [(s#"C", Options [s#"x"])]
  | S n' => Nested [(s#"C", Nested [(s#"v", tower n')])]
  end.

(** Structural induction on a component, through the entries of a
    dictionary. *)
Fixpoint component_nested_ind (P : component -> Prop)
  (HO : forall values, P (Options values))
  (HN : forall entries,
      Forall (fun kv => P (snd kv)) entries -> P (Nested entries))
  (c : component) {struct c} : P c :=
  match c with
  | Options values => HO values
  | Nested entries =>
      HN entries
        ((fix all (es : list (str * component))
            : Forall (fun kv => P (snd kv)) es :=
            match es with
            | [] => Forall_nil _
            | kv :: es' =>
                Forall_cons kv (component_nested_ind P HO HN (snd kv))
                  (all es')
            end) entries)
  end.

(** *** Sample inputs *)

(** An operator who leaves the form as it is drawn (first option of every
    selectbox, every option of a multiselect) but for what is typed into the
    text areas, which checkboxes are ticked and which buttons are pressed. *)
Definition form_operator (typed : str) (ticked pressed : str -> bool)
  : operator :=
  {| selectbox := fun _ options => hd_error options;
     multiselect := fun _ options => options;
     text_area := fun _ => typed;
     checkbox := ticked;
     button := pressed |}.

(** The same, with all checkboxes alike and "Generate" pressed. *)
Definition operator_with (typed : str) (ticked : bool) : operator :=
  form_operator typed (fun _ => ticked) (fun _ => true).

Definition no_providers : providers :=
  {| get_google_trends := [];
     get_reddit_headlines := [];
     get_news := fun _ _ => None |}.

(** Five dictionary levels: a category, its variant, a sub-category that
    has variants of its own, and a sub-category below that. *)
Definition deep_components : list (str * component) :=
  [(s#"A",
    Nested [(s#"v",
             Nested [(s#"B",
                      Nested [(s#"w",
                               Nested [(s#"C", Options [s#"x"])])])])])].


(** A configuration whose seeded template names a placeholder [Q] that the
    taxonomy does not know. *)
Definition seeded_config : config :=
  {| PromptTemplate := s#"[[Q]]";
     PromptTemplateForNewsBased := [];
     Components := [(s#"ISOLanguage", Options [s#"en"])];
     TrendsSource := [];
     TopicList := [s#"t"] |}.

(** A configuration whose template names the seed phrase, which only the
    news form counts among the known keys. *)
Definition seed_phrase_config : config :=
  {| PromptTemplate := s#"[[SeedPhrase]]!";
     PromptTemplateForNewsBased := [];
     Components := [(s#"ISOLanguage", Options [s#"en"])];
     TrendsSource := [];
     TopicList := [s#"t"] |}.

(** *** Further vocabulary *)

(** [sep.join(l)]. *)
Definition join (sep : ascii) (l : list str) : str :=
  match l with
  | [] => []
  | x :: rest => x ++ flat_map (fun y => sep :: y) rest
  end.

(** [p in s] for strings. *)
Fixpoint occursb (p s : str) : bool :=
  match strip_prefix p s with
  | Some _ => true
  | None =>
      match s with
      | [] => false
      | _ :: s' => occursb p s'
      end
  end.

Definition occurs (p s : str) : Prop := exists a b, s = a ++ p ++ b.

(** What the prompt preview takes of a selection: the string itself or the
    first item of the list. *)
Definition first_choice (v : selection) : option str :=
  match v with
  | Single s => Some s
  | Many (x :: _) => Some x
  | Many [] => None
  end.

(** The first choices of all selections, when each has one. *)
Fixpoint first_items (user_selections : dict selection)
  : option (dict str) :=
  match user_selections with
  | [] => Some []
  | (k, v) :: rest =>
      match first_choice v, first_items rest with
      | Some x, Some items => Some ((k, x) :: items)
      | _, _ => None
      end
  end.

(** The number of values a selection stands for once normalized. *)
Definition choices (v : selection) : nat :=
  match v with
  | Single _ => 1
  | Many l => length l
  end.

(** Every category that has variants has at least one. *)
Definition offers_variants (component_dict : list (str * component)) : bool :=
  forallb
    (fun kv => match snd kv with Nested [] => false | _ => true end)
    component_dict.

(** What [render_ui] needs of one category to go on. *)
Definition selectable (kv : str * component) : Prop :=
  match snd kv with
  | Options _ => True
  | Nested value =>
      value <> []
      /\ forallb (fun sv => well_nested (snd sv)) value = true
  end.

(** A selectbox answers with one of the options it shows, if there is
    one. *)
Definition picks_offered (ui : operator) : Prop :=
  forall key option options,
    exists o, selectbox ui key (option :: options) = Some o
              /\ In o (option :: options).

(** The same operator typing other texts. *)
Definition with_text_area (ui : operator) (typed : str -> str) : operator :=
  {| selectbox := selectbox ui;
     multiselect := multiselect ui;
     text_area := typed;
     checkbox := checkbox ui;
     button := button ui |}.

(** The trends of a run of the news form once "Generate" is pressed: those
    of the provider or the topics selected. *)
Definition trends_of_run (data : config) (ui : operator) (env : providers)
  : list str :=
  if checkbox ui (NEWS_ID_PREFIX ++ s#"_automated_trends")
  then get_trends env
         (selectbox ui (NEWS_ID_PREFIX ++ s#"trends_source")
            (TrendsSource data))
  else multiselect ui (NEWS_ID_PREFIX ++ s#"_selected_topics")
         (TopicList data).

(** The four names the news form adds to the keys it collected. *)
Definition news_names : list str :=
  [s#"SeedPhrase"; s#"SourceArticleTitle"; s#"SourceArticleDescription";
   s#"SourceArticleUrl"].

(** The seven names of the provenance fields. *)
Definition provenance_names : list str :=
  [s#"FragmentID"; s#"Content"; s#"Origin"; s#"MachineModel";
   s#"MachinePrompt"; s#"IsFake"; s#"CreationDate"].

(** *** The stack and the widget keys *)

(** The number of activations of [collect_keys], one inside the other, that
    the walk of a component takes. *)
Fixpoint call_depth (c : component) : nat :=
  match c with
  | Options _ => 1
  | Nested entries =>
      S (fold_right
           (fun kv m =>
              Nat.max
                match snd kv with
                | Options _ => 0
                | Nested subs =>
                    fold_right
                      (fun sv m' => Nat.max (call_depth (snd sv)) m') 0 subs
                end
                m)
           0 entries)
  end.

(** The keys of the multiselects that the inner loop of [render_ui]
    draws. *)
Definition nested_widget_keys (key_prefix key : str)
  (nested_dict : list (str * component)) : list str :=
  flat_map
    (fun nkv =>
       match snd nkv with
       | Options _ =>
           [key_prefix ++ s#"multiselect-" ++ key ++ s#"-" ++ fst nkv]
       | Nested _ => []
       end)
    nested_dict.

(** The keys of the widgets that [render_ui] draws for one category, in
    order; those of the multiselects depend on the variant selected. *)
Definition category_widget_keys (ui : operator) (key_prefix : str)
  (kv : str * component) : list str :=
  match snd kv with
  | Options _ => [key_prefix ++ s#"multiselect-" ++ fst kv]
  | Nested value =>
      (key_prefix ++ s#"selectbox-" ++ fst kv)
      :: match selectbox ui (key_prefix ++ s#"selectbox-" ++ fst kv)
                 (keys value) with
         | Some selected_option =>
             match getitem selected_option value with
             | Some (Nested nested_dict) =>
                 nested_widget_keys key_prefix (fst kv) nested_dict
             | _ => []
             end
         | None => []
         end
  end.

Definition widget_keys (ui : operator) (key_prefix : str)
  (component_dict : list (str * component)) : list str :=
  flat_map (category_widget_keys ui key_prefix) component_dict.

(** The keys [l], asked for in this order while the keys [used] are in
    use, are all granted: none is in use and none is asked for twice. *)
Fixpoint fresh_keys (l used : list str) : bool :=
  match l with
  | [] => true
  | key :: l' => negb (mem key used) && fresh_keys l' (key :: used)
  end.

(** Components in which a category named with a hyphen meets a
    sub-category of the category named by the part before the hyphen. *)
Definition hyphen_components : list (str * component) :=
  [(s#"a-b", Options [s#"x"]);
   (s#"a", Nested [(s#"v", Nested [(s#"b", Options [s#"y"])])])].

End Spec.

Import Spec.

(** * Properties *)

Unset Implicit Arguments.

(** ** The built-in operations on sample inputs *)

Example replace_all_occurrences :
  replace s#"[[X]]" s#"Alice" s#"[[X]] met [[Y]] in [[X]]"
  = s#"Alice met [[Y]] in Alice"
  /\ replace [] s#"-" s#"abc" = s#"-a-b-c-".
Proof. split; reflexivity. Qed.

Example split_lines :
  split newline (s#"a" ++ newline :: s#"b" ++ [newline]) = [s#"a"; s#"b"; []]
  /\ split newline [] = [[]].
Proof. split; reflexivity. Qed.

Example findall_lazy_group :
  findall s#"[[a]]]" = [s#"a"]
  /\ findall s#"[[]]" = [[]]
  /\ findall s#"[[[X]]" = [s#"[X"]
  /\ findall (s#"[[a" ++ newline :: s#"[[b]]") = [s#"b"].
Proof. repeat split. Qed.

Example product_rightmost_fastest :
  product [[1; 2]; [3; 4]] = [[1; 3]; [1; 4]; [2; 3]; [2; 4]]
  /\ product2 [1; 2] (@nil nat) = [].
Proof. split; reflexivity. Qed.

Example update_in_place :
  update [(s#"A", 1); (s#"T", 2)] [(s#"T", 3); (s#"U", 4)]
  = [(s#"A", 1); (s#"T", 3); (s#"U", 4)].
Proof. reflexivity. Qed.

(** ** Strings *)

Section StringFacts.

Lemma eqb_spec (a b : str) : reflect (a = b) (eqb a b).
Proof.
  revert b; induction a as [|x a IH]; intros [|y b]; simpl;
    try (constructor; congruence).
  destruct (Ascii.eqb_spec x y) as [->|Hxy]; simpl.
  - destruct (IH b) as [->|Hab]; constructor; congruence.
  - constructor; congruence.
Qed.

Lemma eqb_refl (a : str) : eqb a a = true.
Proof. destruct (eqb_spec a a); congruence. Qed.

Lemma eqb_eq (a b : str) : eqb a b = true <-> a = b.
Proof. destruct (eqb_spec a b); split; congruence. Qed.

Lemma eqb_neq (a b : str) : eqb a b = false <-> a <> b.
Proof. destruct (eqb_spec a b); split; congruence. Qed.

Lemma mem_In (x : str) (l : list str) : mem x l = true <-> In x l.
Proof.
  induction l as [|y l IH]; simpl.
  - split; [discriminate | tauto].
  - rewrite orb_true_iff, IH, eqb_eq. intuition congruence.
Qed.

Lemma strip_prefix_Some (p s r : str) :
  strip_prefix p s = Some r <-> s = p ++ r.
Proof.
  revert s; induction p as [|a p IH]; intros s; simpl.
  - split; congruence.
  - destruct s as [|b s]; [split; discriminate|].
    destruct (Ascii.eqb_spec a b) as [->|Hab].
    + rewrite IH. split; congruence.
    + split; [discriminate | congruence].
Qed.

Lemma strip_prefix_app (p r : str) : strip_prefix p (p ++ r) = Some r.
Proof. now apply strip_prefix_Some. Qed.

Lemma strip_prefix_None (p s : str) :
  strip_prefix p s = None <-> forall r, s <> p ++ r.
Proof.
  destruct (strip_prefix p s) as [r|] eqn:E.
  - apply strip_prefix_Some in E. split; [discriminate|].
    intros H. now destruct (H r).
  - split; [|reflexivity]. intros _ r Hr.
    apply strip_prefix_Some in Hr. congruence.
Qed.


Lemma replace_scan_cons (o : ascii) (old' new : str) (c : ascii) (s' : str) :
  replace_scan o old' new (c :: s')
  = match strip_prefix (o :: old') (c :: s') with
    | Some rest => new ++ replace_scan o old' new rest
    | None => c :: replace_scan o old' new s'
    end.
Proof.
  rewrite replace_scan_equation_2. unfold inspect.
  assert (G : forall x (e : strip_prefix (o :: old') (c :: s') = x),
             replace_scan_unfold_clause_2 o old' new c s' (exist _ x e)
             = match x with
               | Some rest => new ++ replace_scan o old' new rest
               | None => c :: replace_scan o old' new s'
               end)
    by (intros [r|] e; reflexivity).
  apply G.
Qed.

Lemma findall_cons (c : ascii) (s' : str) :
  findall (c :: s')
  = match match_at (c :: s') with
    | Some (g, rest) => g :: findall rest
    | None => findall s'
    end.
Proof.
  rewrite findall_equation_2. unfold inspect.
  assert (G : forall x (e : match_at (c :: s') = x),
             findall_unfold_clause_2 c s' (exist _ x e)
             = match x with
               | Some (g, rest) => g :: findall rest
               | None => findall s'
               end)
    by (intros [[g r]|] e; reflexivity).
  apply G.
Qed.

Lemma has_false (c : ascii) (s : str) : has c s = false <-> ~ In c s.
Proof.
  unfold has. induction s as [|x s IH]; simpl.
  - tauto.
  - rewrite orb_false_iff, IH.
    destruct (Ascii.eqb_spec c x); intuition congruence.
Qed.

Lemma negb_has (c : ascii) (s : str) : negb (has c s) = true <-> ~ In c s.
Proof. rewrite negb_true_iff. apply has_false. Qed.

Lemma distinct_NoDup (l : list str) : distinct l = true <-> NoDup l.
Proof.
  induction l as [|x l IH]; simpl.
  - split; [constructor | reflexivity].
  - rewrite andb_true_iff, negb_true_iff, IH. split.
    + intros [Hx Hl]. constructor; [|assumption].
      intros Hin. apply mem_In in Hin. congruence.
    + intros H. inversion H as [|? ? Hx Hl]; subst. split; [|assumption].
      destruct (mem x l) eqn:E; [|reflexivity].
      apply mem_In in E. contradiction.
Qed.

End StringFacts.

(** ** Replacing one placeholder *)

Section ReplaceFacts.

Variables (k v : str).

(** One [prompt_filled.replace(f"[[{key}]]", value)]. *)
Let rep : str -> str := replace (placeholder_key k) v.

Lemma rep_nil : rep [] = [].
Proof. reflexivity. Qed.

Lemma rep_cons (c : ascii) (s : str) :
  rep (c :: s)
  = match strip_prefix (placeholder_key k) (c :: s) with
    | Some rest => v ++ rep rest
    | None => c :: rep s
    end.
Proof. unfold rep, replace, placeholder_key. apply replace_scan_cons. Qed.

Lemma rep_hit (r : str) : rep (placeholder_key k ++ r) = v ++ rep r.
Proof.
  assert (E : strip_prefix (placeholder_key k) (placeholder_key k ++ r) = Some r)
    by apply strip_prefix_app.
  unfold placeholder_key in *. simpl app in *.
  change (lbracket :: lbracket :: (k ++ [rbracket; rbracket]) ++ r)
    with (lbracket :: (lbracket :: (k ++ [rbracket; rbracket]) ++ r)).
  rewrite rep_cons. unfold placeholder_key. simpl app. rewrite E. reflexivity.
Qed.

(** No occurrence starts at a character other than the opening bracket. *)
Lemma rep_pass (c : ascii) (s : str) :
  c <> lbracket -> rep (c :: s) = c :: rep s.
Proof.
  intros Hc. rewrite rep_cons. unfold placeholder_key. cbn [strip_prefix].
  destruct (Ascii.eqb_spec lbracket c); [congruence | reflexivity].
Qed.

Lemma rep_text (s r : str) :
  ~ In lbracket s -> rep (s ++ r) = s ++ rep r.
Proof.
  induction s as [|c s IH]; simpl; intros H; [reflexivity|].
  rewrite rep_pass by (intros ->; tauto).
  rewrite IH by tauto. reflexivity.
Qed.

(** Two names without a closing bracket that are closed at the same place
    are the same name. *)
Lemma name_closing_inj (n m x y : str) :
  ~ In rbracket n -> ~ In rbracket m ->
  n ++ rbracket :: x = m ++ rbracket :: y -> n = m.
Proof.
  revert m; induction n as [|a n IH]; intros [|b m] Hn Hm E; simpl in *.
  - reflexivity.
  - injection E as E _. subst b. tauto.
  - injection E as E _. subst a. tauto.
  - injection E as -> E. f_equal. apply IH; tauto.
Qed.

Lemma key_not_at_other_hole (n r : str) :
  n <> k -> ~ In rbracket n -> ~ In rbracket k ->
  strip_prefix (placeholder_key k) (placeholder_key n ++ r) = None.
Proof.
  intros Hnk Hn Hk. apply strip_prefix_None. intros r' E.
  unfold placeholder_key in E. simpl in E. injection E as E.
  rewrite <- !app_assoc in E. simpl in E.
  apply name_closing_inj in E; congruence.
Qed.

Lemma rep_hole_other (n r : str) :
  n <> k -> ~ In lbracket n -> ~ In rbracket n -> ~ In rbracket k ->
  rep (placeholder_key n ++ r) = placeholder_key n ++ rep r.
Proof.
  intros Hnk Hl Hn Hk.
  pose proof (key_not_at_other_hole n r Hnk Hn Hk) as E.
  unfold placeholder_key in *. cbn [app] in *.
  rewrite rep_cons. unfold placeholder_key. rewrite E.
  f_equal. rewrite rep_cons. unfold placeholder_key. cbn [strip_prefix].
  rewrite Ascii.eqb_refl.
  assert (E2 : strip_prefix (lbracket :: k ++ [rbracket; rbracket])
                 ((n ++ [rbracket; rbracket]) ++ r) = None).
  { destruct n as [|c n]; cbn [app strip_prefix].
    - reflexivity.
    - destruct (Ascii.eqb_spec lbracket c) as [<-|]; [|reflexivity].
      simpl in Hl. tauto. }
  cbn [strip_prefix] in E2. rewrite E2. f_equal. apply rep_text.
  rewrite in_app_iff. simpl. intros [H|[H|[H|[]]]];
    [tauto | discriminate | discriminate].
Qed.

(** An occurrence of the key that starts before a token of another name
    ends before it. *)
Lemma closing_before_open (p x m y : str) :
  ~ In lbracket m ->
  p ++ lbracket :: x = m ++ rbracket :: rbracket :: y ->
  exists p2, p = m ++ rbracket :: rbracket :: p2.
Proof.
  revert p; induction m as [|a m IH]; intros p Hm E; simpl in *.
  - destruct p as [|c [|c2 p]]; simpl in E; try discriminate.
    injection E as -> -> E. now exists p.
  - destruct p as [|c p]; simpl in E.
    + injection E as <- _. tauto.
    + injection E as -> E. destruct (IH p) as [p2 ->]; [tauto | assumption |].
      now exists p2.
Qed.

Lemma key_before_hole (pre z post rest : str) :
  pre <> [] -> ~ In lbracket k ->
  pre ++ placeholder_key z ++ post = placeholder_key k ++ rest ->
  exists p2, pre = placeholder_key k ++ p2.
Proof.
  intros Hpre Hk E. unfold placeholder_key in *.
  destruct pre as [|c [|c2 pre]]; [congruence | |]; cbn [app] in E.
  - injection E as -> E. exfalso.
    destruct k as [|a k']; cbn [app] in E.
    + discriminate.
    + injection E as <- _. simpl in Hk. tauto.
  - injection E as -> -> E.
    rewrite <- (app_assoc k) in E. cbn [app] in E.
    apply closing_before_open in E; [|assumption].
    destruct E as [p2 ->]. exists p2.
    cbn [app]. rewrite <- app_assoc. reflexivity.
Qed.

(** A token of a name other than the key is a boundary of the scan. *)
Lemma rep_around_hole (z pre post : str) :
  z <> k -> ~ In lbracket z -> ~ In rbracket z ->
  ~ In lbracket k -> ~ In rbracket k ->
  rep (pre ++ placeholder_key z ++ post)
  = rep pre ++ placeholder_key z ++ rep post.
Proof.
  intros Hzk Hzl Hzr Hkl Hkr.
  remember (length pre) as len eqn:Hlen.
  revert pre Hlen. induction len as [len IH] using lt_wf_ind. intros pre Hlen.
  destruct pre as [|c pre'].
  - cbn [app]. rewrite rep_nil. now apply rep_hole_other.
  - cbn [app]. rewrite !rep_cons.
    destruct (strip_prefix (placeholder_key k) (c :: pre')) as [rest|] eqn:E.
    + apply strip_prefix_Some in E.
      change (c :: pre' ++ placeholder_key z ++ post)
        with ((c :: pre') ++ placeholder_key z ++ post).
      rewrite E, <- app_assoc, strip_prefix_app, <- app_assoc. f_equal.
      apply (IH (length rest)); [|reflexivity].
      subst len. rewrite E, length_app. unfold placeholder_key. simpl. lia.
    + destruct (strip_prefix (placeholder_key k)
                  (c :: pre' ++ placeholder_key z ++ post)) as [rest|] eqn:E2.
      * apply strip_prefix_Some in E2.
        change (c :: pre' ++ placeholder_key z ++ post)
          with ((c :: pre') ++ placeholder_key z ++ post) in E2.
        apply key_before_hole in E2; [|discriminate|assumption].
        destruct E2 as [p2 E2]. rewrite E2, strip_prefix_app in E.
        discriminate.
      * cbn [app]. f_equal. apply (IH (length pre')); [|reflexivity].
        subst len. simpl. lia.
Qed.

End ReplaceFacts.

(** ** Template substitution *)

Section Substitution.

Lemma prompt_filled_cons (template k v : str) (combination : dict str) :
  prompt_filled template ((k, v) :: combination)
  = prompt_filled (replace (placeholder_key k) v template) combination.
Proof. reflexivity. Qed.

Lemma piece_ok_Text (s : str) : piece_ok (Text s) = true <-> ~ In lbracket s.
Proof. apply negb_has. Qed.

Lemma piece_ok_Hole (n : str) :
  piece_ok (Hole n) = true <-> ~ In lbracket n /\ ~ In rbracket n.
Proof. simpl. now rewrite andb_true_iff, !negb_has. Qed.

Lemma bracket_free_spec (s : str) :
  bracket_free s = true <-> ~ In lbracket s /\ ~ In rbracket s.
Proof. unfold bracket_free. now rewrite andb_true_iff, !negb_has. Qed.

(** One [replace] on a template of text and tokens fills the holes of that
    key and nothing else. *)
Lemma replace_render (k v : str) (pieces : list piece) :
  forallb piece_ok pieces = true -> ~ In rbracket k ->
  replace (placeholder_key k) v (render pieces)
  = render (map (fill [(k, v)]) pieces).
Proof.
  intros Hok Hk. induction pieces as [|p pieces IH]; [reflexivity|].
  simpl in Hok. apply andb_true_iff in Hok as [Hp Hrest].
  specialize (IH Hrest). destruct p as [s|n]; cbn [render map render_piece fill].
  - apply piece_ok_Text in Hp. rewrite rep_text by assumption. now rewrite IH.
  - apply piece_ok_Hole in Hp as [Hl Hr]. cbn [getitem].
    destruct (eqb_spec n k) as [->|Hnk]; cbn [render_piece].
    + rewrite rep_hit. now rewrite IH.
    + rewrite rep_hole_other by assumption. now rewrite IH.
Qed.

Lemma fill_ok (k v : str) (pieces : list piece) :
  forallb piece_ok pieces = true -> ~ In lbracket v ->
  forallb piece_ok (map (fill [(k, v)]) pieces) = true.
Proof.
  intros Hok Hv. induction pieces as [|p pieces IH]; [reflexivity|].
  simpl in Hok. apply andb_true_iff in Hok as [Hp Hrest].
  cbn [map forallb]. rewrite (IH Hrest), andb_true_r.
  destruct p as [s|n]; [assumption|]. cbn [fill getitem].
  destruct (eqb n k); [|assumption]. now apply piece_ok_Text.
Qed.

Lemma fill_fill (k v : str) (combination : dict str) (pieces : list piece) :
  map (fill combination) (map (fill [(k, v)]) pieces)
  = map (fill ((k, v) :: combination)) pieces.
Proof.
  rewrite map_map. apply map_ext. intros [s|n]; [reflexivity|].
  cbn [fill getitem]. now destruct (eqb n k).
Qed.

End Substitution.




(** C5, as amended. A token [[[Z]]] whose name holds no bracket and is not a
    key of the combination is a fixed point of the substitution when the
    keys hold no bracket either: the prompt is the filled text before the
    token, the token itself, and the filled text after it. The values are
    arbitrary. *)
Theorem unresolved_placeholder_kept (pre z post : str)
  (combination : dict str) :
  bracket_free z = true ->
  forallb (fun kv => bracket_free (fst kv)) combination = true ->
  getitem z combination = None ->
  prompt_filled (pre ++ placeholder_key z ++ post) combination
  = prompt_filled pre combination ++ placeholder_key z
    ++ prompt_filled post combination.
Proof.
  intros Hz. apply bracket_free_spec in Hz as [Hzl Hzr].
  revert pre post.
  induction combination as [|[k v] combination IH]; intros pre post Hk Hget.
  - reflexivity.
  - simpl in Hk. apply andb_true_iff in Hk as [Hk Hks].
    apply bracket_free_spec in Hk as [Hkl Hkr].
    cbn [getitem] in Hget. destruct (eqb_spec z k) as [|Hzk]; [discriminate|].
    rewrite !prompt_filled_cons, rep_around_hole by assumption.
    now apply IH.
Qed.

Lemma unresolved_placeholder_kept_witness :
  prompt_filled s#"Dear [[X]], about [[Z]]: [[Y]]"
    [(s#"X", s#"[[Z]]"); (s#"Y", s#"[[X]]")]
  = prompt_filled s#"Dear [[X]], about "
      [(s#"X", s#"[[Z]]"); (s#"Y", s#"[[X]]")]
    ++ s#"[[Z]]"
    ++ prompt_filled s#": [[Y]]" [(s#"X", s#"[[Z]]"); (s#"Y", s#"[[X]]")].
Proof.
  exact (unresolved_placeholder_kept s#"Dear [[X]], about " s#"Z" s#": [[Y]]"
           [(s#"X", s#"[[Z]]"); (s#"Y", s#"[[X]]")] eq_refl eq_refl eq_refl).
Defined.

(** C5 as stated fails for a name that holds brackets: the scanner reads
    the name [a[[b] in this template, it is not a key, and yet the token is
    rewritten by the replacement of the key [b]. *)
Lemma unresolved_placeholder_rewritten :
  findall s#"[[a[[b]]" = [s#"a[[b"]
  /\ getitem s#"a[[b" [(s#"b", s#"x")] = None
  /\ prompt_filled s#"[[a[[b]]" [(s#"b", s#"x")] = s#"[[ax".
Proof. repeat split. Qed.

(** ** Placeholder scanner *)

Section Scanner.

Lemma closes_first_nil : closes_first [].
Proof. intros [|x [|y a]] b E; simpl in E; discriminate. Qed.

Lemma closes_first_tail (c : ascii) (n : str) :
  closes_first (c :: n) -> closes_first n.
Proof. intros H a b E. apply (H (c :: a) b). simpl. now rewrite E. Qed.

(** A name that closes first does not begin a pair of closing brackets. *)
Lemma closes_first_head (n r : str) :
  closes_first n ->
  n <> [] -> strip_prefix [rbracket; rbracket] (n ++ rbracket :: r) = None.
Proof.
  intros H Hn. apply strip_prefix_None. intros r' E.
  destruct n as [|x [|y n]]; [congruence | |]; simpl in E.
  - injection E as -> _. now apply (H [] []).
  - injection E as -> -> _. apply (H [] (n ++ [rbracket])). reflexivity.
Qed.

Lemma lazy_group_spec (x n r : str) :
  lazy_group x = Some (n, r)
  <-> x = n ++ rbracket :: rbracket :: r /\ closes_first n /\ ~ In newline n.
Proof.
  split.
  - revert n r. induction x as [|c x IH]; intros n r H; [discriminate|].
    cbn [lazy_group] in H.
    destruct (strip_prefix [rbracket; rbracket] (c :: x)) as [rest|] eqn:E.
    + injection H as <- <-. apply strip_prefix_Some in E.
      split; [exact E|]. split; [apply closes_first_nil | tauto].
    + destruct (Ascii.eqb_spec c newline) as [|Hc]; [discriminate|].
      destruct (lazy_group x) as [[g rest]|] eqn:Eg; [|discriminate].
      injection H as <- <-. destruct (IH _ _ eq_refl) as (-> & Hg & Hnl).
      split; [reflexivity|]. split.
      * intros [|a0 a] b Ea; simpl in Ea.
        -- injection Ea as -> Ea. exfalso.
           destruct g as [|y g]; simpl in Ea; [|injection Ea as -> _];
             cbn [app strip_prefix] in E; rewrite !Ascii.eqb_refl in E;
             discriminate.
        -- injection Ea as _ Ea. now apply (Hg a b).
      * simpl. intros [->|Hin]; [congruence | tauto].
  - revert x. induction n as [|c n IH]; intros x (-> & Hn & Hnl).
    + reflexivity.
    + cbn [app lazy_group].
      change (c :: n ++ rbracket :: rbracket :: r)
        with ((c :: n) ++ rbracket :: rbracket :: r).
      rewrite closes_first_head by (assumption || discriminate).
      cbn [app]. destruct (Ascii.eqb_spec c newline) as [->|Hc].
      * simpl in Hnl. tauto.
      * rewrite (IH (n ++ rbracket :: rbracket :: r)); [reflexivity|].
        split; [reflexivity|]. split; [now apply closes_first_tail with c|].
        simpl in Hnl. tauto.
Qed.

Lemma match_at_spec (t n r : str) :
  match_at t = Some (n, r) <-> line_token t n r.
Proof.
  unfold match_at, line_token, spec_token, placeholder_key. split.
  - destruct (strip_prefix [lbracket; lbracket] t) as [x|] eqn:E;
      [|discriminate].
    apply strip_prefix_Some in E. subst t. intros H.
    apply lazy_group_spec in H as (-> & Hn & Hnl).
    repeat split; try assumption.
    simpl. now rewrite <- app_assoc.
  - intros [[-> Hn] Hnl]. cbn [app strip_prefix]. rewrite !Ascii.eqb_refl.
    apply lazy_group_spec. rewrite <- app_assoc. now repeat split.
Qed.

Lemma match_at_None (t : str) :
  match_at t = None <-> forall n r, ~ line_token t n r.
Proof.
  split.
  - intros E n r H. apply match_at_spec in H. congruence.
  - intros H. destruct (match_at t) as [[n r]|] eqn:E; [|reflexivity].
    apply match_at_spec in E. now destruct (H n r).
Qed.

Lemma findall_scans (s : str) : scans line_token s (findall s).
Proof.
  remember (length s) as len eqn:Hlen. revert s Hlen.
  induction len as [len IH] using lt_wf_ind. intros [|c s] Hlen.
  - rewrite findall_equation_1. constructor.
  - rewrite findall_cons.
    destruct (match_at (c :: s)) as [[n r]|] eqn:E.
    + apply scans_take with r; [now apply match_at_spec|].
      apply (IH (length r)); [|reflexivity].
      apply match_at_shorter in E. lia.
    + apply scans_pass; [now apply match_at_None|].
      apply (IH (length s)); [|reflexivity]. subst len. simpl. lia.
Qed.

Lemma scans_findall (s : str) (names : list str) :
  scans line_token s names -> names = findall s.
Proof.
  induction 1 as [|t n r names Ht _ IH|c t names Hno _ IH].
  - now rewrite findall_equation_1.
  - apply match_at_spec in Ht. destruct t as [|c t]; [discriminate|].
    rewrite findall_cons, Ht. now rewrite IH.
  - apply match_at_None in Hno. now rewrite findall_cons, Hno.
Qed.

Lemma closes_first_plain (n : str) : ~ In rbracket n -> closes_first n.
Proof.
  induction n as [|c n IH]; intros Hn; [apply closes_first_nil|].
  intros [|x a] b E; simpl in E.
  - injection E as -> _. simpl in Hn. tauto.
  - injection E as _ E. apply (IH ltac:(simpl in Hn; tauto) a b E).
Qed.

Lemma findall_text (s r : str) :
  ~ In lbracket s -> findall (s ++ r) = findall r.
Proof.
  induction s as [|c s IH]; intros Hs; [reflexivity|].
  cbn [app]. rewrite findall_cons. unfold match_at. cbn [strip_prefix].
  destruct (Ascii.eqb_spec lbracket c) as [<-|_]; [simpl in Hs; tauto|].
  apply IH. simpl in Hs. tauto.
Qed.

(** On a template written as text and tokens the scanner returns the names
    of the tokens: it reads the template as the substitution does. *)
Lemma findall_render (pieces : list piece) :
  forallb piece_ok pieces = true ->
  forallb one_line pieces = true ->
  findall (render pieces) = holes pieces.
Proof.
  induction pieces as [|p pieces IH]; intros Hok Hline.
  - apply findall_equation_1.
  - cbn [forallb] in Hok, Hline.
    apply andb_true_iff in Hok as [Hp Hok].
    apply andb_true_iff in Hline as [Hl Hline].
    specialize (IH Hok Hline). destruct p as [s|n]; cbn [render render_piece].
    + rewrite findall_text by now apply negb_has. exact IH.
    + cbn [piece_ok] in Hp. apply andb_true_iff in Hp as [_ Hr].
      apply negb_has in Hr. apply negb_has in Hl.
      assert (E : match_at (placeholder_key n ++ render pieces)
                  = Some (n, render pieces)).
      { apply match_at_spec. repeat split; try assumption.
        now apply closes_first_plain. }
      unfold placeholder_key in *. cbn [app] in *.
      rewrite findall_cons, E. cbn [holes flat_map app].
      fold (holes pieces). now rewrite IH.
Qed.

Lemma uncovered_keeps (known found : list str) :
  keeps_unknown known found (uncovered known found).
Proof.
  induction found as [|x found IH]; cbn [uncovered filter].
  - constructor.
  - fold (uncovered known found). destruct (mem x known) eqn:E; cbn [negb].
    + apply keeps_known; [now apply mem_In | assumption].
    + apply keeps_new; [|assumption].
      intros Hin. apply mem_In in Hin. congruence.
Qed.

Lemma keeps_uncovered (known found unknown : list str) :
  keeps_unknown known found unknown -> unknown = uncovered known found.
Proof.
  induction 1 as [|x found unknown Hx _ IH|x found unknown Hx _ IH];
    cbn [uncovered filter].
  - reflexivity.
  - fold (uncovered known found). apply mem_In in Hx. now rewrite Hx.
  - fold (uncovered known found).
    destruct (mem x known) eqn:E; [apply mem_In in E; contradiction|].
    cbn [negb]. now rewrite IH.
Qed.

End Scanner.

(** C6, as amended. For every template the scanner returns, in order and
    with repetitions, the names of the tokens met when the template is read
    from left to right, a token being [[[name]]] with the shortest name and
    with no line break in the name; the names are compared character by
    character. The unknown placeholders are exactly the scanned names that
    are not among the known keys, in the order of the scan. *)
Theorem scanner_partition (template : str) (known : list str) :
  scans line_token template (findall template)
  /\ (forall names, scans line_token template names -> names = findall template)
  /\ keeps_unknown known (findall template)
       (uncovered_placeholders known template)
  /\ (forall unknown,
        keeps_unknown known (findall template) unknown ->
        unknown = uncovered_placeholders known template).
Proof.
  split; [apply findall_scans|]. split; [apply scans_findall|].
  split; [apply uncovered_keeps | apply keeps_uncovered].
Qed.

(** The specification's example: [Topic] is the one unknown placeholder. *)
Example scanner_partition_example :
  findall s#"[[Style]] and [[Topic]]" = [s#"Style"; s#"Topic"]
  /\ uncovered_placeholders [s#"Style"; s#"Tone"] s#"[[Style]] and [[Topic]]"
     = [s#"Topic"].
Proof. split; reflexivity. Qed.

(** Adjacent tokens are read one by one, repetitions are kept, and a name
    in another case is another name. *)
Example scanner_short_tokens :
  findall s#"[[a]][[b]] [[a]]" = [s#"a"; s#"b"; s#"a"]
  /\ uncovered_placeholders [s#"Style"] s#"[[style]]" = [s#"style"].
Proof. split; reflexivity. Qed.

(** C6 as stated fails for a name that spans a line break: the name lies
    between the delimiters and holds no closing pair, the specification's
    reading returns it, and the scanner returns nothing. *)
Lemma scanner_misses_broken_line :
  scans spec_token (s#"[[a" ++ newline :: s#"b]]") [s#"a" ++ newline :: s#"b"]
  /\ findall (s#"[[a" ++ newline :: s#"b]]") = [].
Proof.
  split; [|reflexivity].
  apply scans_take with []; [|constructor].
  split; [reflexivity|].
  intros a b E.
  do 5 (destruct a as [|? a]; simpl in E; try discriminate).
Qed.

(** ** Dictionaries *)

Section DictFacts.

Context {V : Type}.

Implicit Types (d : dict V) (k : str) (v : V).

Lemma getitem_None d k : getitem k d = None <-> ~ In k (keys d).
Proof.
  induction d as [|[k' v'] d IH]; simpl.
  - tauto.
  - destruct (eqb_spec k k') as [->|Hk].
    + split; [discriminate | tauto].
    + rewrite IH. intuition congruence.
Qed.

Lemma setitem_fresh d k v :
  ~ In k (keys d) -> setitem k v d = d ++ [(k, v)].
Proof.
  induction d as [|[k' v'] d IH]; simpl; intros H; [reflexivity|].
  destruct (eqb_spec k k') as [->|Hk]; [tauto|].
  rewrite IH by tauto. reflexivity.
Qed.

Lemma keys_setitem_in d k v :
  In k (keys d) -> keys (setitem k v d) = keys d.
Proof.
  induction d as [|[k' v'] d IH]; simpl; intros H; [tauto|].
  destruct (eqb_spec k k') as [->|Hk]; [reflexivity|].
  simpl. rewrite IH; [reflexivity|]. intuition congruence.
Qed.

Lemma In_keys_setitem d k v k0 :
  In k0 (keys d) -> In k0 (keys (setitem k v d)).
Proof.
  induction d as [|[k' v'] d IH]; simpl; intros H; [tauto|].
  destruct (eqb k k'); simpl; tauto.
Qed.

Lemma getitem_setitem_same d k v : getitem k (setitem k v d) = Some v.
Proof.
  induction d as [|[k' v'] d IH]; simpl.
  - now rewrite eqb_refl.
  - destruct (eqb_spec k k') as [->|Hk]; simpl.
    + now rewrite eqb_refl.
    + destruct (eqb_spec k k'); [congruence | assumption].
Qed.

Lemma getitem_setitem_other d k v k0 :
  k0 <> k -> getitem k0 (setitem k v d) = getitem k0 d.
Proof.
  intros Hk0. induction d as [|[k' v'] d IH]; simpl.
  - destruct (eqb_spec k0 k); [congruence | reflexivity].
  - destruct (eqb_spec k k') as [->|Hk]; simpl.
    + destruct (eqb_spec k0 k'); [congruence | reflexivity].
    + now rewrite IH.
Qed.

Lemma update_cons d k v (items : list (str * V)) :
  update d ((k, v) :: items) = update (setitem k v d) items.
Proof. reflexivity. Qed.

(** Items under new, pairwise distinct keys are appended in their order. *)
Lemma update_fresh d (items : list (str * V)) :
  NoDup (keys d ++ map fst items) -> update d items = d ++ items.
Proof.
  revert d. induction items as [|[k v] items IH]; intros d H.
  - simpl. now rewrite app_nil_r.
  - rewrite update_cons. simpl in H.
    pose proof (NoDup_remove_2 _ _ _ H) as Hk.
    rewrite setitem_fresh by (rewrite in_app_iff in Hk; tauto).
    rewrite IH.
    + now rewrite <- app_assoc.
    + unfold keys. rewrite map_app, <- app_assoc. exact H.
Qed.

Lemma of_items_distinct (items : list (str * V)) :
  NoDup (map fst items) -> of_items items = items.
Proof. intros H. unfold of_items. now rewrite update_fresh. Qed.

(** Item assignment keeps the keys of a dictionary distinct. *)
Lemma setitem_NoDup d k v : NoDup (keys d) -> NoDup (keys (setitem k v d)).
Proof.
  intros H. destruct (in_dec (list_eq_dec ascii_dec) k (keys d)) as [Hin|Hin].
  - now rewrite keys_setitem_in.
  - rewrite setitem_fresh by assumption. unfold keys. rewrite map_app.
    apply NoDup_app; [assumption | repeat constructor; simpl; tauto |].
    simpl. intros a Ha [<-|[]]. contradiction.
Qed.

Lemma update_NoDup d (items : list (str * V)) :
  NoDup (keys d) -> NoDup (keys (update d items)).
Proof.
  revert d. induction items as [|[k v] items IH]; intros d H; [exact H|].
  rewrite update_cons. now apply IH, setitem_NoDup.
Qed.

End DictFacts.

(** ** Selection normalizer *)

Section Normalizer.

Lemma fix_structure_of_items (selections : dict selection) :
  fix_structure selections = of_items (map normal_item selections).
Proof.
  unfold fix_structure, of_items, update. generalize (@nil (str * selection)).
  induction selections as [|[k v] selections IH]; intros acc; [reflexivity|].
  cbn [fold_left map]. rewrite <- IH. now destruct v.
Qed.

Lemma keys_normal_items (selections : dict selection) :
  keys (map normal_item selections) = keys selections.
Proof. unfold keys. rewrite map_map. reflexivity. Qed.

Lemma fix_structure_map (selections : dict selection) :
  distinct (keys selections) = true ->
  fix_structure selections = map normal_item selections.
Proof.
  intros H. rewrite fix_structure_of_items. apply of_items_distinct.
  fold (keys (map normal_item selections)). rewrite keys_normal_items.
  now apply distinct_NoDup.
Qed.

Lemma normal_items_many (selections : dict selection) :
  forallb is_many (values selections) = true ->
  map normal_item selections = selections.
Proof.
  induction selections as [|[k v] selections IH]; simpl; intros H.
  - reflexivity.
  - apply andb_true_iff in H as [Hv H]. rewrite IH by assumption.
    destruct v; [discriminate | reflexivity].
Qed.

(** Whatever it is given, [fix_structure] builds a dictionary. *)
Lemma fix_structure_distinct (selections : dict selection) :
  distinct (keys (fix_structure selections)) = true.
Proof.
  apply distinct_NoDup. rewrite fix_structure_of_items.
  apply update_NoDup. constructor.
Qed.

Lemma normal_items_are_many (selections : dict selection) :
  forallb is_many (values (map normal_item selections)) = true.
Proof.
  induction selections as [|[k v] selections IH]; simpl; [reflexivity|].
  now destruct v.
Qed.

End Normalizer.

(** C7. For every selections dictionary, [fix_structure] returns the same
    keys in the same order, each with the list it had or with the one-item
    list of the string it had: nothing is dropped or reordered. It is a
    total function. On a dictionary whose values are all lists it is the
    identity, and so applying it twice is applying it once. *)
Theorem fix_structure_normalizes (selections : dict selection) :
  distinct (keys selections) = true ->
  fix_structure selections
  = map (fun kv => (fst kv, normal (snd kv))) selections
  /\ keys (fix_structure selections) = keys selections
  /\ forallb is_many (values (fix_structure selections)) = true
  /\ (forallb is_many (values selections) = true ->
      fix_structure selections = selections)
  /\ fix_structure (fix_structure selections) = fix_structure selections.
Proof.
  intros H. pose proof (fix_structure_map _ H) as E.
  fold normal_item. rewrite E.
  split; [reflexivity|]. split; [apply keys_normal_items|].
  split; [apply normal_items_are_many|].
  split; [apply normal_items_many|].
  rewrite fix_structure_map by now rewrite keys_normal_items.
  apply normal_items_many, normal_items_are_many.
Qed.

Lemma fix_structure_normalizes_witness :
  fix_structure [(s#"Style", Single s#"Formal");
                 (s#"Tone", Many [s#"dry"; s#"warm"])]
  = [(s#"Style", Many [s#"Formal"]); (s#"Tone", Many [s#"dry"; s#"warm"])].
Proof.
  exact (proj1 (fix_structure_normalizes
                  [(s#"Style", Single s#"Formal");
                   (s#"Tone", Many [s#"dry"; s#"warm"])] eq_refl)).
Defined.

(** ** Combination expander *)

Section Product.

Variable A : Type.

Implicit Types (pools : list (list A)) (v : list A).

Lemma product_cons (pool : list A) pools :
  product (pool :: pools)
  = flat_map (fun x => map (cons x) (product pools)) pool.
Proof. reflexivity. Qed.

Lemma product_length pools :
  length (product pools)
  = fold_right (fun pool n => length pool * n) 1 pools.
Proof.
  induction pools as [|pool pools IH]; [reflexivity|].
  rewrite product_cons. cbn [fold_right]. rewrite <- IH.
  induction pool as [|x pool IHp]; [reflexivity|].
  cbn [flat_map length]. rewrite length_app, length_map, IHp. lia.
Qed.

Lemma In_product pools v :
  In v (product pools) <-> Forall2 (fun x pool => In x pool) v pools.
Proof.
  revert v. induction pools as [|pool pools IH]; intros v.
  - simpl. split.
    + intros [<-|[]]. constructor.
    + intros H. inversion H. now left.
  - rewrite product_cons, in_flat_map. split.
    + intros (x & Hx & Hv). apply in_map_iff in Hv as (w & <- & Hw).
      constructor; [assumption | now apply IH].
    + intros H. inversion H as [|x pool' w pools' Hx Hw]; subst.
      exists x. split; [assumption|]. apply in_map. now apply IH.
Qed.

Lemma product_NoDup pools :
  Forall (@NoDup A) pools -> NoDup (product pools).
Proof.
  induction 1 as [|pool pools Hpool _ IH].
  - simpl. constructor; [simpl; tauto | constructor].
  - rewrite product_cons.
    induction Hpool as [|x pool Hx _ IHp]; [constructor|].
    cbn [flat_map]. apply NoDup_app.
    + apply NoDup_map_NoDup_ForallPairs; [|assumption].
      intros a b _ _ E. congruence.
    + exact IHp.
    + intros w Hw Hw'. apply in_map_iff in Hw as (w1 & <- & _).
      apply in_flat_map in Hw' as (y & Hy & Hw').
      apply in_map_iff in Hw' as (w2 & E & _).
      injection E as -> _. contradiction.
Qed.

Lemma product_empty pools :
  Exists (fun pool => pool = []) pools -> product pools = [].
Proof.
  induction 1 as [pool pools ->|pool pools _ IH].
  - reflexivity.
  - rewrite product_cons, IH. now induction pool.
Qed.

End Product.

Section Expander.

Lemma Forall2_In_map (A B : Type) (f : B -> list A) (v : list A)
  (ws : list B) :
  Forall2 (fun x pool => In x pool) v (map f ws)
  <-> Forall2 (fun x w => In x (f w)) v ws.
Proof.
  revert v. induction ws as [|w ws IH]; intros v; simpl.
  - split; intros H; inversion H; constructor.
  - split; intros H; inversion H; subst; constructor;
      try assumption; now apply IH.
Qed.

Lemma combine_keys_values {V : Type} (d : dict V) :
  combine (keys d) (values d) = d.
Proof.
  induction d as [|[k v] d IH]; [reflexivity|]. simpl. now rewrite IH.
Qed.

Lemma keys_combine {V : Type} (ks : list str) (vs : list V) :
  length ks = length vs -> keys (combine ks vs) = ks.
Proof.
  revert vs; induction ks as [|k ks IH]; intros [|v vs] H; simpl in *;
    try reflexivity; try discriminate.
  f_equal. apply IH. lia.
Qed.

Lemma values_combine {V : Type} (ks : list str) (vs : list V) :
  length ks = length vs -> values (combine ks vs) = vs.
Proof.
  revert vs; induction ks as [|k ks IH]; intros [|v vs] H; simpl in *;
    try reflexivity; try discriminate.
  f_equal. apply IH. lia.
Qed.

(** With distinct keys [dict(zip(keys, v))] keeps every pair, in order. *)
Lemma combinations_combine (iter_selections : dict selection) :
  iter_selections <> [] ->
  distinct (keys iter_selections) = true ->
  combinations iter_selections
  = Some (map (combine (keys iter_selections))
            (product (map iter_selection (values iter_selections)))).
Proof.
  intros Hne Hd. unfold combinations, unzip_items.
  destruct iter_selections as [|kv rest] eqn:E; [congruence|].
  rewrite <- E in *. f_equal. apply map_ext_in. intros v Hv.
  apply of_items_distinct.
  apply In_product, Forall2_length in Hv. rewrite length_map in Hv.
  fold (keys (combine (keys iter_selections) v)).
  rewrite keys_combine.
  - now apply distinct_NoDup.
  - unfold keys, values in *. rewrite length_map in *. lia.
Qed.

End Expander.

(** C1, as amended. For every non-empty selection set the expander returns
    the Cartesian product of the value lists by position: the number of
    combinations is the product of the list lengths; the combinations are
    exactly the dictionaries that map the keys of the selection set, in its
    order, to one element each of the list of that key; no combination
    occurs twice when no list repeats a value; and the result is empty when
    a list is empty. *)
Theorem combinations_cartesian (iter_selections : dict selection) :
  iter_selections <> [] ->
  distinct (keys iter_selections) = true ->
  exists combos,
    combinations iter_selections = Some combos
    /\ length combos
       = fold_right (fun v n => length (iter_selection v) * n) 1
           (values iter_selections)
    /\ (forall c,
          In c combos
          <-> keys c = keys iter_selections
              /\ Forall2 (fun x v => In x (iter_selection v))
                   (values c) (values iter_selections))
    /\ (Forall (fun v => NoDup (iter_selection v)) (values iter_selections) ->
        NoDup combos)
    /\ (Exists (fun v => iter_selection v = []) (values iter_selections) ->
        combos = []).
Proof.
  intros Hne Hd. eexists. split; [now apply combinations_combine|].
  set (ks := keys iter_selections). set (vs := values iter_selections).
  assert (Hlen : length ks = length vs)
    by (unfold ks, vs, keys, values; now rewrite !length_map).
  assert (Hin : forall v,
             In v (product (map iter_selection vs)) ->
             length ks = length v).
  { intros v Hv. apply In_product, Forall2_length in Hv.
    rewrite length_map in Hv. lia. }
  split; [|split; [|split]].
  - rewrite length_map, product_length.
    clear. induction vs as [|v vs IH]; simpl; [reflexivity | now rewrite IH].
  - intros c. rewrite in_map_iff. split.
    + intros (v & <- & Hv). pose proof (Hin v Hv) as Hl.
      rewrite keys_combine, values_combine by assumption.
      split; [reflexivity|]. now apply Forall2_In_map, In_product.
    + intros [Hk Hv]. exists (values c). split.
      * fold ks in Hk. rewrite <- Hk. apply combine_keys_values.
      * now apply In_product, Forall2_In_map.
  - intros Hnd. apply NoDup_map_NoDup_ForallPairs.
    + intros v w Hv Hw E. apply Hin in Hv, Hw.
      rewrite <- (values_combine ks v), <- (values_combine ks w), E
        by assumption.
      reflexivity.
    + apply product_NoDup. clear - Hnd.
      induction Hnd; simpl; constructor; assumption.
  - intros Hex. rewrite product_empty; [reflexivity|]. clear - Hex.
    induction Hex; simpl; [now left | now right].
Qed.

(** The specification's examples: two combinations for [A] of two values and
    [B] of one, none when the list of [A] is empty. *)
Lemma combinations_cartesian_witness :
  exists combos,
    combinations [(s#"A", Many [s#"a1"; s#"a2"]); (s#"B", Many [s#"b1"])]
    = Some combos
    /\ length combos = 2.
Proof.
  destruct (combinations_cartesian
              [(s#"A", Many [s#"a1"; s#"a2"]); (s#"B", Many [s#"b1"])]
              ltac:(discriminate) eq_refl)
    as (combos & E & Hlen & _).
  exists combos. split; [exact E | exact Hlen].
Defined.

Example combinations_example :
  combinations [(s#"A", Many [s#"a1"; s#"a2"]); (s#"B", Many [s#"b1"])]
  = Some [[(s#"A", s#"a1"); (s#"B", s#"b1")];
          [(s#"A", s#"a2"); (s#"B", s#"b1")]]
  /\ combinations [(s#"A", Many []); (s#"B", Many [s#"b1"])] = Some [].
Proof. split; reflexivity. Qed.

(** C1 as stated fails on a list that repeats a value, as the lines typed
    into a text area may: the product is taken by position and holds the
    same combination twice. *)
Lemma combinations_repeat :
  combinations [(s#"A", Many [s#"x"; s#"x"])]
  = Some [[(s#"A", s#"x")]; [(s#"A", s#"x")]]
  /\ ~ NoDup [[(s#"A", s#"x")]; [(s#"A", s#"x")]].
Proof.
  split; [reflexivity|]. intros H. inversion H as [|? ? Hin _]; subst.
  apply Hin. now left.
Qed.

(** Unpacking [zip( *iter_selections.items())] raises on the empty
    dictionary: no combination list is returned for it. *)
Example combinations_of_nothing : combinations [] = None.
Proof. reflexivity. Qed.

(** ** External-record merger *)

Section Merger.

Lemma product2_list_prod (A B : Type) (xs : list A) (ys : list B) :
  product2 xs ys = list_prod xs ys.
Proof. symmetry. apply list_prod_as_flat_map. Qed.

Lemma list_prod_map_r (A B C : Type) (g : B -> C) (xs : list A)
  (ys : list B) :
  list_prod xs (map g ys)
  = map (fun p => (fst p, g (snd p))) (list_prod xs ys).
Proof.
  induction xs as [|x xs IH]; [reflexivity|].
  cbn [list_prod]. rewrite map_app, IH, !map_map. reflexivity.
Qed.

Lemma nth_error_product2 (A B : Type) (xs : list A) (ys : list B)
  (i j : nat) (x : A) (y : B) :
  nth_error xs i = Some x -> nth_error ys j = Some y ->
  nth_error (product2 xs ys) (i * length ys + j) = Some (x, y).
Proof.
  revert i. induction xs as [|x0 xs IH]; intros i Hx Hy.
  - destruct i; discriminate.
  - unfold product2. cbn [flat_map]. fold (product2 xs ys).
    assert (Hj : j < length ys) by (apply nth_error_Some; congruence).
    destruct i as [|i]; simpl in Hx.
    + injection Hx as ->. rewrite nth_error_app1 by (rewrite length_map; lia).
      simpl. rewrite nth_error_map, Hy. reflexivity.
    + rewrite nth_error_app2 by (rewrite length_map; simpl; lia).
      rewrite length_map.
      replace (S i * length ys + j - length ys) with (i * length ys + j)
        by (simpl; lia).
      now apply IH.
Qed.

Lemma In_keys_update (d items : dict str) (k : str) :
  In k (keys d) -> In k (keys (update d items)).
Proof.
  revert d. induction items as [|[k' v'] items IH]; intros d H; [exact H|].
  rewrite update_cons. apply IH. now apply In_keys_setitem.
Qed.

(** The three keys of an article are pairwise distinct strings. *)
Lemma merged_fields (c : dict str) (a : article) :
  getitem s#"SourceArticleTitle" (update c (article_placeholders a))
  = Some (title a)
  /\ getitem s#"SourceArticleDescription" (update c (article_placeholders a))
     = Some (description a)
  /\ getitem s#"SourceArticleUrl" (update c (article_placeholders a))
     = Some (url a).
Proof.
  unfold article_placeholders, update. cbn [fold_left fst snd].
  repeat split.
  - rewrite getitem_setitem_other by (vm_compute; discriminate).
    rewrite getitem_setitem_other by (vm_compute; discriminate).
    apply getitem_setitem_same.
  - rewrite getitem_setitem_other by (vm_compute; discriminate).
    apply getitem_setitem_same.
  - apply getitem_setitem_same.
Qed.

Lemma merged_rest (c : dict str) (a : article) (k : str) :
  ~ In k (keys (article_placeholders a)) ->
  getitem k (update c (article_placeholders a)) = getitem k c.
Proof.
  unfold article_placeholders, update. cbn [fold_left fst snd keys map In].
  intros H. rewrite !getitem_setitem_other; [reflexivity | | |];
    intros ->; tauto.
Qed.

End Merger.

(** C4. For [N] combinations and [M] articles the merger returns [N * M]
    dictionaries: the pair of the [i]-th combination and the [j]-th article
    is at position [i * M + j], so every combination meets every article
    once and the order is fixed by the order of the inputs. Each merged
    dictionary holds every key of its combination and carries the title,
    the description and the address of its article under
    [SourceArticleTitle], [SourceArticleDescription] and [SourceArticleUrl];
    the values of all other keys are those of the combination. *)
Theorem merge_cross_join (combinations : list (dict str))
  (articles : list article) :
  let merged :=
    merge_articles combinations (articles_to_placeholder articles) in
  length merged = length combinations * length articles
  /\ merged
     = map (fun ca => update (fst ca) (article_placeholders (snd ca)))
         (list_prod combinations articles)
  /\ (forall i j c a,
        nth_error combinations i = Some c ->
        nth_error articles j = Some a ->
        nth_error merged (i * length articles + j)
        = Some (update c (article_placeholders a)))
  /\ (forall c a,
        let m := update c (article_placeholders a) in
        incl (keys c) (keys m)
        /\ getitem s#"SourceArticleTitle" m = Some (title a)
        /\ getitem s#"SourceArticleDescription" m = Some (description a)
        /\ getitem s#"SourceArticleUrl" m = Some (url a)
        /\ (forall k,
              ~ In k (keys (article_placeholders a)) ->
              getitem k m = getitem k c)).
Proof.
  cbv zeta. unfold merge_articles, articles_to_placeholder.
  split; [|split; [|split]].
  - rewrite length_map, product2_list_prod, length_prod, length_map.
    reflexivity.
  - rewrite product2_list_prod, list_prod_map_r, map_map. reflexivity.
  - intros i j c a Hc Ha.
    assert (Hp : nth_error (map article_placeholders articles) j
                 = Some (article_placeholders a))
      by now rewrite nth_error_map, Ha.
    pose proof (nth_error_product2 _ _ combinations
                  (map article_placeholders articles) i j c
                  (article_placeholders a) Hc Hp) as E.
    rewrite length_map in E. unfold dict in *.
    rewrite nth_error_map, E. reflexivity.
  - intros c a. split; [intros k; apply In_keys_update|].
    destruct (merged_fields c a) as (Ht & Hd & Hu).
    repeat split; try assumption. intros k. apply merged_rest.
Qed.

(** The specification's count: two combinations and three articles give six
    merged combinations. *)
Example merge_cross_join_example :
  length
    (merge_articles [[(s#"A", s#"a1")]; [(s#"A", s#"a2")]]
       (articles_to_placeholder
          [Article s#"t1" s#"d1" s#"u1"; Article s#"t2" s#"d2" s#"u2";
           Article s#"t3" s#"d3" s#"u3"]))
  = 6.
Proof. reflexivity. Qed.

(** C3, as amended. When the prompts are based on real news and no article
    was retrieved, the merge runs all the same and its output is the empty
    list, whatever the combinations of the options; the combinations of the
    options are the output, unmodified, when the prompts are not based on
    real news. *)
Theorem merge_without_articles (combinations : list (dict str)) :
  merge_step true combinations (articles_to_placeholder []) = []
  /\ (forall news_articles,
        merge_step false combinations news_articles = combinations).
Proof.
  split; [|reflexivity].
  unfold merge_step, merge_articles, articles_to_placeholder.
  rewrite product2_list_prod. cbn [map].
  now induction combinations.
Qed.

(** In the news form: one topic is selected and the provider has no article
    for it. Based on real news, the run hands no prompt to the generator;
    not based on real news, it hands the one prompt of the options. *)
Example news_form_without_articles :
  snd (news_from_trends_ui seeded_config
         (form_operator []
            (eqb (NEWS_ID_PREFIX ++ s#"_based_on_real_news"))
            (fun _ => true))
         no_providers [] store_after_def)
  = Some []
  /\ snd (news_from_trends_ui seeded_config (operator_with [] false)
            no_providers [] store_after_def)
     = Some [s#"[[Q]]"].
Proof. split; reflexivity. Qed.

(** C3 as stated fails: one combination of the options and no article give
    no combination at all. *)
Lemma merge_discards_combinations :
  merge_step true [[(s#"A", s#"x")]] (articles_to_placeholder []) = []
  /\ merge_step true [[(s#"A", s#"x")]] (articles_to_placeholder [])
     <> [[(s#"A", s#"x")]].
Proof. split; [reflexivity | discriminate]. Qed.

(** ** Option taxonomy reader *)

Section Reader.

Lemma for_each_nil (X : Type) (body : X -> list str -> list str * bool)
  (acc : list str) :
  for_each body [] acc = (acc, true).
Proof. reflexivity. Qed.

Lemma for_each_cons (X : Type) (body : X -> list str -> list str * bool)
  (x : X) (xs : list X) (acc : list str) :
  for_each body (x :: xs) acc
  = match body x acc with
    | (acc', true) => for_each body xs acc'
    | (acc', false) => (acc', false)
    end.
Proof. reflexivity. Qed.

Lemma collect_keys_body_Nested (entries : list (str * component))
  (collected_keys : list str) :
  collect_keys_body (Nested entries) collected_keys
  = for_each
      (fun kv acc =>
         let acc := acc ++ [fst kv] in
         match snd kv with
         | Nested value =>
             for_each (fun sv acc => collect_keys_body (snd sv) acc) value acc
         | Options _ => (acc, true)
         end)
      entries collected_keys.
Proof. reflexivity. Qed.

(** On a well-nested taxonomy the walk returns, whatever the depth, and has
    appended the category names of every level; the second part is the loop
    over the variants of one category. *)
Lemma collect_keys_body_levels (c : component) :
  (forall acc,
      well_nested c = true ->
      collect_keys_body c acc = (acc ++ taxonomy_keys c, true))
  /\ match c with
     | Options _ => True
     | Nested subs =>
         forall acc,
           forallb (fun sv => well_nested (snd sv)) subs = true ->
           for_each (fun sv acc => collect_keys_body (snd sv) acc) subs acc
           = (acc ++ flat_map (fun sv => taxonomy_keys (snd sv)) subs, true)
     end.
Proof.
  induction c as [values|entries IH] using component_nested_ind.
  - split; [discriminate | exact I].
  - split.
    + intros acc H. rewrite collect_keys_body_Nested.
      cbn [well_nested taxonomy_keys] in *. revert acc H.
      induction IH as [|[key value] es [_ Hvariants] _ IHes]; intros acc H.
      * rewrite for_each_nil. simpl. now rewrite app_nil_r.
      * cbn [forallb fst snd] in H. apply andb_true_iff in H as [Hv Hes].
        rewrite for_each_cons. cbn [fst snd flat_map].
        destruct value as [values|subs].
        -- rewrite IHes by assumption. cbn [app].
           now rewrite <- app_assoc.
        -- cbn [snd] in Hvariants. rewrite Hvariants by assumption.
           rewrite IHes by assumption.
           now rewrite <- !app_assoc.
    + intros acc H. revert acc H.
      induction IH as [|[key value] es [Hvalue _] _ IHes]; intros acc H.
      * rewrite for_each_nil. simpl. now rewrite app_nil_r.
      * cbn [forallb fst snd] in H. apply andb_true_iff in H as [Hv Hes].
        rewrite for_each_cons. cbn [fst snd flat_map] in *.
        rewrite Hvalue by assumption. rewrite IHes by assumption.
        now rewrite <- app_assoc.
Qed.

Lemma load_store_at (a : nat) (v : list str) (h : store) :
  load a (store_at a v h) = v.
Proof. unfold load, store_at. now rewrite Nat.eqb_refl. Qed.

Lemma for_each_extends (X : Type)
  (body : X -> list str -> list str * bool) (xs : list X) :
  Forall (fun x => forall acc, exists more, fst (body x acc) = acc ++ more)
    xs ->
  forall acc, exists more, fst (for_each body xs acc) = acc ++ more.
Proof.
  induction 1 as [|x xs Hx _ IH]; intros acc.
  - exists []. rewrite for_each_nil. simpl. now rewrite app_nil_r.
  - rewrite for_each_cons. destruct (Hx acc) as [more1 E1].
    destruct (body x acc) as [acc' [|]]; cbn [fst] in E1; subst acc'.
    + destruct (IH (acc ++ more1)) as [more2 E2]. exists (more1 ++ more2).
      now rewrite E2, app_assoc.
    + now exists more1.
Qed.

(** Returning or raising, the walk only appends to the accumulator. *)
Lemma collect_keys_body_appends (c : component) :
  (forall acc, exists more, fst (collect_keys_body c acc) = acc ++ more)
  /\ match c with
     | Options _ => True
     | Nested subs =>
         forall acc, exists more,
           fst (for_each (fun sv acc => collect_keys_body (snd sv) acc)
                  subs acc)
           = acc ++ more
     end.
Proof.
  induction c as [values|entries IH] using component_nested_ind.
  - split; [|exact I]. intros acc. exists []. simpl. now rewrite app_nil_r.
  - split.
    + intros acc. rewrite collect_keys_body_Nested.
      apply for_each_extends.
      induction IH as [|[key value] es [_ Hvariants] _ IHes];
        constructor; [|assumption].
      intros acc0. cbn [fst snd]. destruct value as [values|subs].
      * now exists [key].
      * cbn [snd] in Hvariants.
        destruct (Hvariants (acc0 ++ [key])) as [more E].
        exists (key :: more). rewrite E, <- app_assoc. reflexivity.
    + apply for_each_extends.
      induction IH as [|[key value] es [Hvalue _] _ IHes];
        constructor; assumption.
Qed.

Lemma collect_keys_appends (d : component) (a : nat) (h : store) :
  exists more, load a (fst (collect_keys d a h)) = load a h ++ more.
Proof.
  unfold collect_keys.
  destruct (proj1 (collect_keys_body_appends d) (load a h)) as [more E].
  destruct (collect_keys_body d (load a h)) as [acc returned].
  cbn [fst] in *. exists more. now rewrite load_store_at.
Qed.

Lemma collect_keys_body_ok (c : component) (acc : list str) :
  well_nested c = true ->
  collect_keys_body c acc = (acc ++ taxonomy_keys c, true).
Proof. intros H. now apply collect_keys_body_levels. Qed.

(** A call on a well-nested taxonomy returns the accumulator object, whose
    contents have grown by the keys of the taxonomy. *)
Lemma collect_keys_ok (d : component) (a : nat) (h : store) :
  well_nested d = true ->
  snd (collect_keys d a h) = Some a
  /\ load a (fst (collect_keys d a h)) = load a h ++ taxonomy_keys d.
Proof.
  intros H. unfold collect_keys. rewrite collect_keys_body_ok by assumption.
  cbn [fst snd]. split; [reflexivity | apply load_store_at].
Qed.



Lemma for_each_returns (X : Type)
  (body : X -> list str -> list str * bool) (p : X -> bool) (xs : list X) :
  Forall (fun x => forall acc, snd (body x acc) = p x) xs ->
  forall acc, snd (for_each body xs acc) = forallb p xs.
Proof.
  induction 1 as [|x xs Hx _ IH]; intros acc; [reflexivity|].
  rewrite for_each_cons. specialize (Hx acc).
  destruct (body x acc) as [acc' [|]]; cbn [snd] in Hx; cbn [forallb];
    rewrite <- Hx; [apply IH | reflexivity].
Qed.

Lemma for_each_ext (X : Type)
  (body body' : X -> list str -> list str * bool) (xs : list X) :
  (forall x, In x xs -> forall acc, body x acc = body' x acc) ->
  forall acc, for_each body xs acc = for_each body' xs acc.
Proof.
  induction xs as [|x xs IH]; intros H acc; [reflexivity|].
  rewrite !for_each_cons, (H x (or_introl eq_refl)).
  destruct (body' x acc) as [acc' [|]]; [|reflexivity].
  apply IH. intros y Hy. apply H. now right.
Qed.

(** *** The walk on a bounded stack *)

Lemma le_fold_max (X : Type) (f : X -> nat) (xs : list X) (x : X) :
  In x xs -> f x <= fold_right (fun y m => Nat.max (f y) m) 0 xs.
Proof.
  induction xs as [|y xs IH]; cbn [In fold_right]; [intros []|].
  intros [->|H]; [lia | specialize (IH H); lia].
Qed.

Lemma forallb_max (X : Type) (a : X -> bool) (f : X -> nat) (n : nat)
  (xs : list X) :
  forallb (fun x => a x && (f x <=? n)) xs
  = forallb a xs
    && (fold_right (fun y m => Nat.max (f y) m) 0 xs <=? n).
Proof.
  induction xs as [|x xs IH]; [reflexivity|].
  cbn [forallb fold_right]. rewrite IH.
  set (m := fold_right (fun y m => Nat.max (f y) m) 0 xs).
  assert (E : (Nat.max (f x) m <=? n) = (f x <=? n) && (m <=? n)).
  { apply eq_true_iff_eq. rewrite andb_true_iff, !Nat.leb_le. lia. }
  rewrite E.
  destruct (a x), (forallb a xs), (f x <=? n), (m <=? n); reflexivity.
Qed.

Lemma forallb_pointwise (X : Type) (p q : X -> bool) (xs : list X) :
  (forall x, In x xs -> p x = q x) -> forallb p xs = forallb q xs.
Proof.
  induction xs as [|x xs IH]; intros H; [reflexivity|].
  cbn [forallb]. rewrite (H x (or_introl eq_refl)), IH; [reflexivity|].
  intros y Hy. apply H. now right.
Qed.

Lemma call_depth_Nested (entries : list (str * component)) :
  call_depth (Nested entries)
  = S (fold_right
         (fun kv m =>
            Nat.max
              match snd kv with
              | Options _ => 0
              | Nested subs =>
                  fold_right
                    (fun sv m' => Nat.max (call_depth (snd sv)) m') 0 subs
              end
              m)
         0 entries).
Proof. reflexivity. Qed.

Lemma call_depth_pos (c : component) : 1 <= call_depth c.
Proof.
  destruct c as [values|entries];
    [apply Nat.le_refl | rewrite call_depth_Nested; lia].
Qed.

(** On a stack with room for the walk, the bounded walk is the walk. *)
Lemma collect_keys_body_within_enough (frames : nat) :
  forall (c : component) (acc : list str),
    call_depth c <= frames ->
    collect_keys_body_within frames c acc = collect_keys_body c acc.
Proof.
  induction frames as [|frames IH]; intros c acc H.
  - pose proof (call_depth_pos c). lia.
  - destruct c as [values|entries]; [reflexivity|].
    rewrite call_depth_Nested in H. apply le_S_n in H.
    cbn [collect_keys_body_within]. rewrite collect_keys_body_Nested.
    apply for_each_ext. intros [key value] Hkv acc0. cbn [fst snd].
    pose proof
      (le_fold_max _
         (fun kv : str * component =>
            match snd kv with
            | Options _ => 0
            | Nested subs =>
                fold_right
                  (fun sv m' => Nat.max (call_depth (snd sv)) m') 0 subs
            end)
         entries (key, value) Hkv) as Hle.
    cbn [snd] in Hle.
    destruct value as [values|subs]; [reflexivity|].
    apply for_each_ext. intros sv Hsv acc1. apply IH.
    pose proof
      (le_fold_max _ (fun sv : str * component => call_depth (snd sv))
         subs sv Hsv) as Hle'.
    cbv beta in Hle'. lia.
Qed.

(** The bounded walk returns on the well-nested components for whose walk
    the stack has room, and on no other. *)
Lemma collect_keys_body_within_returns (frames : nat) :
  forall (c : component) (acc : list str),
    snd (collect_keys_body_within frames c acc)
    = well_nested c && (call_depth c <=? frames).
Proof.
  induction frames as [|frames IH]; intros c acc.
  - cbn [collect_keys_body_within snd]. pose proof (call_depth_pos c).
    destruct (Nat.leb_spec (call_depth c) 0); [lia|].
    now rewrite andb_false_r.
  - destruct c as [values|entries]; [reflexivity|].
    cbn [collect_keys_body_within]. rewrite call_depth_Nested.
    cbn [well_nested Nat.leb]. rewrite <- forallb_max.
    apply for_each_returns. apply Forall_forall.
    intros [key value] _ acc0. cbn [fst snd].
    destruct value as [values|subs]; [reflexivity|].
    rewrite <- forallb_max. apply for_each_returns. apply Forall_forall.
    intros sv _ acc1. apply IH.
Qed.

Lemma collect_keys_body_within_ok (frames : nat) (c : component)
  (acc : list str) :
  well_nested c = true ->
  call_depth c <= frames ->
  collect_keys_body_within frames c acc = (acc ++ taxonomy_keys c, true).
Proof.
  intros Hwn Hle. rewrite collect_keys_body_within_enough by assumption.
  now apply collect_keys_body_ok.
Qed.

Lemma collect_keys_body_within_raises (frames : nat) (c : component)
  (acc : list str) :
  frames < call_depth c ->
  snd (collect_keys_body_within frames c acc) = false.
Proof.
  intros H. rewrite collect_keys_body_within_returns.
  destruct (Nat.leb_spec (call_depth c) frames); [lia|].
  apply andb_false_r.
Qed.

Lemma tower_call_depth (n : nat) : call_depth (tower n) = n + 1.
Proof.
  induction n as [|n IH]; [reflexivity|].
  cbn [tower]. rewrite call_depth_Nested. cbn [fold_right snd].
  rewrite IH, !Nat.max_0_r. lia.
Qed.

End Reader.



(** C9. Two calls of [collect_keys] that leave the accumulator out work on
    the same list object. On every component, whether the calls return or
    raise, the list after the second call begins with the list after the
    first call. On every taxonomy dictionary both calls return that object;
    after the second call it holds what the first call returned followed by
    the keys of the taxonomy once more, so every key the first call returned
    is still in it, and it differs from what the first call returned as soon
    as the taxonomy has a key. *)
Theorem collect_keys_accumulates (d : component) (h : store) :
  let first := collect_keys d collected_keys_default h in
  let second := collect_keys d collected_keys_default (fst first) in
  let returned_first := load collected_keys_default (fst first) in
  let returned_second := load collected_keys_default (fst second) in
  (exists more, returned_second = returned_first ++ more)
  /\ incl returned_first returned_second
  /\ (well_nested d = true ->
      snd first = Some collected_keys_default
      /\ snd second = Some collected_keys_default
      /\ returned_first = load collected_keys_default h ++ taxonomy_keys d
      /\ returned_second = returned_first ++ taxonomy_keys d
      /\ (taxonomy_keys d <> [] -> returned_second <> returned_first)).
Proof.
  cbv zeta.
  destruct (collect_keys_appends d collected_keys_default
              (fst (collect_keys d collected_keys_default h))) as [more E].
  split; [now exists more|].
  split; [rewrite E; intros k Hk; apply in_or_app; now left|].
  intros H.
  destruct (collect_keys_ok d collected_keys_default h H) as [R1 L1].
  destruct (collect_keys_ok d collected_keys_default
              (fst (collect_keys d collected_keys_default h)) H) as [R2 L2].
  repeat split; try assumption.
  intros Hne E2. rewrite L2 in E2.
  rewrite <- (app_nil_r (load _ (fst (collect_keys d _ h)))) in E2 at 2.
  apply app_inv_head in E2. contradiction.
Qed.

(** Right after the definition of the function the first call returns the
    keys of the taxonomy and the second call returns them twice. *)
Lemma collect_keys_accumulates_witness :
  let d := Nested [(s#"Style", Options [s#"Formal"]);
                   (s#"Tone", Options [s#"dry"])] in
  let first := collect_keys d collected_keys_default store_after_def in
  let second := collect_keys d collected_keys_default (fst first) in
  load collected_keys_default (fst first) = [s#"Style"; s#"Tone"]
  /\ load collected_keys_default (fst second)
     = [s#"Style"; s#"Tone"; s#"Style"; s#"Tone"].
Proof.
  destruct (collect_keys_accumulates
              (Nested [(s#"Style", Options [s#"Formal"]);
                       (s#"Tone", Options [s#"dry"])])
              store_after_def) as (_ & _ & H).
  destruct (H eq_refl) as (_ & _ & E1 & E2 & _).
  split; [exact E1 | exact E2].
Defined.

(** The two forms of one run share the list. Alone, the generation form
    finds [SeedPhrase] unknown, asks for it and fills it in; after the news
    form, which has added [SeedPhrase] to the list it got from
    [collect_keys], the generation form takes the name for a key of the
    taxonomy and leaves the token in the prompt. *)
Example forms_share_collected_keys :
  let ui := form_operator s#"cats" (fun _ => false) (eqb s#"Generate") in
  snd (automatic_news_generation_ui seed_phrase_config ui
         (PromptTemplate seed_phrase_config) store_after_def)
  = Some [s#"cats!"]
  /\ script seed_phrase_config ui no_providers
       (PromptTemplate seed_phrase_config) (PromptTemplate seed_phrase_config)
     = Some ([], [s#"[[SeedPhrase]]!"]).
Proof. split; reflexivity. Qed.

(** ** The edited template *)




(** * Further properties of the code *)

(** ** collect_keys *)

Section CollectKeysErrors.

(** Whether the walk returns does not depend on the accumulator: it returns
    on the well-nested components and on no other. *)
Lemma collect_keys_body_returns (c : component) :
  (forall acc, snd (collect_keys_body c acc) = well_nested c)
  /\ match c with
     | Options _ => True
     | Nested subs =>
         forall acc,
           snd (for_each (fun sv acc => collect_keys_body (snd sv) acc)
                  subs acc)
           = forallb (fun sv => well_nested (snd sv)) subs
     end.
Proof.
  induction c as [values|entries IH] using component_nested_ind.
  - split; [reflexivity | exact I].
  - split.
    + intros acc. rewrite collect_keys_body_Nested. cbn [well_nested].
      apply for_each_returns.
      induction IH as [|[key value] es [_ Hvariants] _ IHes];
        constructor; [|assumption].
      intros acc0. cbn [fst snd]. destruct value as [values|subs];
        [reflexivity | apply Hvariants].
    + apply for_each_returns.
      induction IH as [|[key value] es [Hvalue _] _ IHes];
        constructor; assumption.
Qed.

End CollectKeysErrors.

(** X1. Where the interpreter lets [frames] nested activations run,
    [collect_keys] raises exactly when the component is not well nested,
    that is when it is handed a list or meets a variant whose value is a
    list, or when its walk takes more than [frames] activations; otherwise
    it returns its accumulator. Either way it writes to no other list than
    its accumulator, to which it only appends. *)
Theorem collect_keys_raises_iff (frames : nat) (d : component) (a : nat)
  (h : store) :
  (snd (collect_keys_within frames d a h) = None
   <-> well_nested d = false \/ frames < call_depth d)
  /\ (snd (collect_keys_within frames d a h) = Some a
      <-> well_nested d = true /\ call_depth d <= frames)
  /\ (forall b,
        b <> a -> load b (fst (collect_keys_within frames d a h)) = load b h)
  /\ (well_nested d = true ->
      call_depth d <= frames ->
      load a (fst (collect_keys_within frames d a h))
      = load a h ++ taxonomy_keys d).
Proof.
  unfold collect_keys_within.
  pose proof (collect_keys_body_within_returns frames d (load a h)) as E.
  pose proof (collect_keys_body_within_ok frames d (load a h)) as Hok.
  destruct (collect_keys_body_within frames d (load a h)) as [acc returned].
  cbn [fst snd] in *. subst returned.
  assert (B : well_nested d && (call_depth d <=? frames) = true
              <-> well_nested d = true /\ call_depth d <= frames)
    by (now rewrite andb_true_iff, Nat.leb_le).
  destruct (well_nested d && (call_depth d <=? frames));
    (split; [|split; [|split]]).
  - destruct (proj1 B eq_refl) as [Hwn Hle].
    split; [discriminate|]. intros [H|H]; [congruence | lia].
  - split; [intros _ | reflexivity]. now apply B.
  - intros b Hb. unfold load, store_at.
    destruct (Nat.eqb_spec b a); [contradiction | reflexivity].
  - intros Hwn Hle. specialize (Hok Hwn Hle).
    injection Hok as ->. apply load_store_at.
  - split; [intros _ | reflexivity].
    destruct (well_nested d); [right | now left].
    destruct (Nat.le_gt_cases (call_depth d) frames) as [Hle|Hgt];
      [|exact Hgt].
    assert (false = true) by (now apply B). discriminate.
  - split; [discriminate|]. intros H. apply B in H. discriminate.
  - intros b Hb. unfold load, store_at.
    destruct (Nat.eqb_spec b a); [contradiction | reflexivity].
  - intros Hwn Hle. specialize (Hok Hwn Hle). discriminate.
Qed.

(** The taxonomy of [2 * n + 1] levels is refused for want of room as soon
    as [n] reaches the number of activations let run. *)
Example tower_exceeds_stack (frames n : nat) (acc : list str) :
  frames <= n -> snd (collect_keys_body_within frames (tower n) acc) = false.
Proof.
  intros H. apply collect_keys_body_within_raises.
  rewrite tower_call_depth. lia.
Qed.

(** A category whose variant is a list of values, without sub-categories:
    the key of the category is appended and then the call raises. *)
Example collect_keys_variant_list :
  collect_keys_body (Nested [(s#"A", Nested [(s#"v", Options [s#"x"])])]) []
  = ([s#"A"], false).
Proof. reflexivity. Qed.

(** ** render_ui *)

Section RenderUiFacts.

Context {V : Type}.

Lemma keys_setitem_incl (d : dict V) (k : str) (v : V) (k0 : str) :
  In k0 (keys (setitem k v d)) -> k0 = k \/ In k0 (keys d).
Proof.
  induction d as [|[k' v'] d IH]; simpl.
  - intros [<-|[]]. now left.
  - destruct (eqb_spec k k') as [->|_]; simpl; [tauto|].
    intros [<-|H]; [tauto|]. destruct (IH H); tauto.
Qed.

Lemma getitem_In (d : dict V) (k : str) (v : V) :
  getitem k d = Some v -> In (k, v) d.
Proof.
  induction d as [|[k' v'] d IH]; simpl; [discriminate|].
  destruct (eqb_spec k k') as [->|_].
  - intros [= ->]. now left.
  - intros H. right. now apply IH.
Qed.

Lemma In_getitem (d : dict V) (k : str) :
  In k (keys d) -> exists v, getitem k d = Some v.
Proof.
  intros H. destruct (getitem k d) as [v|] eqn:E; [now exists v|].
  apply getitem_None in E. contradiction.
Qed.

End RenderUiFacts.

Section RenderUiKeys.

Variables (ui : operator) (key_prefix : str).

Lemma keys_render_nested (key : str) (nested_dict : list (str * component))
  (user_selections : dict selection) (k0 : str) :
  In k0 (keys (render_nested ui key_prefix key nested_dict user_selections)) ->
  In k0 (keys user_selections) \/ In k0 (keys nested_dict).
Proof.
  unfold render_nested. revert user_selections.
  induction nested_dict as [|[nk nv] nd IH]; intros sel H; [now left|].
  cbn [fold_left fst snd] in H. apply IH in H as [H|H].
  - destruct nv as [values|deeper].
    + apply keys_setitem_incl in H as [->|H]; [right; now left | now left].
    + now left.
  - right. now right.
Qed.

Lemma In_taxonomy_keys_top (entries : list (str * component)) (k : str)
  (v : component) :
  In (k, v) entries -> In k (taxonomy_keys (Nested entries)).
Proof.
  intros H. cbn [taxonomy_keys]. apply in_flat_map.
  exists (k, v). split; [assumption | now left].
Qed.

Lemma In_taxonomy_keys_nested (entries value nested_dict : list (str * component))
  (k o nk : str) :
  In (k, Nested value) entries -> In (o, Nested nested_dict) value ->
  In nk (keys nested_dict) ->
  In nk (taxonomy_keys (Nested entries)).
Proof.
  intros He Hv Hn. cbn [taxonomy_keys]. apply in_flat_map.
  exists (k, Nested value). split; [assumption|]. right. cbn [snd].
  apply in_flat_map. exists (o, Nested nested_dict). split; [assumption|].
  cbn [snd]. apply in_map_iff in Hn as ([nk' nv] & <- & Hin).
  now apply In_taxonomy_keys_top with nv.
Qed.

(** The keys [render_ui] selects are keys [collect_keys] collects. *)
Lemma render_ui_keys (component_dict : list (str * component))
  (user_selections : dict selection) :
  render_ui ui key_prefix component_dict = Some user_selections ->
  incl (keys user_selections) (taxonomy_keys (Nested component_dict)).
Proof.
  unfold render_ui.
  match goal with |- context [fold_left ?f _ _] => set (step := f) end.
  assert (Hnone : forall es, fold_left step es None = None)
    by (induction es; [reflexivity | assumption]).
  assert (G : forall es sel0 sel,
             incl es component_dict ->
             incl (keys sel0) (taxonomy_keys (Nested component_dict)) ->
             fold_left step es (Some sel0) = Some sel ->
             incl (keys sel) (taxonomy_keys (Nested component_dict))).
  { induction es as [|[key value] es IH]; intros sel0 sel Hes H0 E.
    - injection E as <-. exact H0.
    - assert (Hkv : In (key, value) component_dict) by (apply Hes; now left).
      assert (Hes' : incl es component_dict)
        by (intros x Hx; apply Hes; now right).
      cbn [fold_left] in E. unfold step at 2 in E. cbn [fst snd] in E.
      destruct value as [values|value].
      + apply (IH _ _ Hes') in E; [exact E|].
        intros k0 Hk0. apply keys_setitem_incl in Hk0 as [->|Hk0];
          [now apply In_taxonomy_keys_top with (Options values) | now apply H0].
      + destruct (selectbox ui _ _) as [selected_option|];
          [|rewrite Hnone in E; discriminate].
        destruct (getitem selected_option value) as [[values|nested_dict]|]
          eqn:Eget; try (rewrite Hnone in E; discriminate).
        apply getitem_In in Eget.
        apply (IH _ _ Hes') in E; [exact E|].
        intros k0 Hk0. apply keys_render_nested in Hk0 as [Hk0|Hk0].
        * apply keys_setitem_incl in Hk0 as [->|Hk0];
            [now apply In_taxonomy_keys_top with (Nested value)
            | now apply H0].
        * now apply In_taxonomy_keys_nested
            with value nested_dict key selected_option. }
  intros E. apply (G component_dict [] user_selections);
    [apply incl_refl | intros k [] | exact E].
Qed.

End RenderUiKeys.

(** X2. Every key under which [render_ui] stores a selection is a key that
    [collect_keys] collects from the same components. So a placeholder
    that is uncovered with respect to the collected keys is never one of the
    selected keys: the values typed for it are added to the selections and
    overwrite none of them. *)
Theorem render_ui_keys_are_collected (ui : operator) (key_prefix : str)
  (component_dict : list (str * component))
  (user_selections : dict selection) :
  render_ui ui key_prefix component_dict = Some user_selections ->
  incl (keys user_selections) (taxonomy_keys (Nested component_dict))
  /\ (forall all_possible_keys placeholders placeholder,
        incl (taxonomy_keys (Nested component_dict)) all_possible_keys ->
        In placeholder (uncovered all_possible_keys placeholders) ->
        getitem placeholder user_selections = None).
Proof.
  intros E. pose proof (render_ui_keys ui key_prefix _ _ E) as Hk.
  split; [exact Hk|]. intros known found ph Hknown Hph.
  apply getitem_None. intros Hin. apply Hk, Hknown in Hin.
  unfold uncovered in Hph. apply filter_In in Hph as [_ Hph].
  apply negb_true_iff in Hph. apply mem_In in Hin. congruence.
Qed.

Lemma render_ui_keys_are_collected_witness :
  incl (keys [(s#"A", Single s#"v")])
    (taxonomy_keys (Nested deep_components)).
Proof.
  exact (proj1 (render_ui_keys_are_collected (operator_with [] true) []
                  deep_components [(s#"A", Single s#"v")] eq_refl)).
Defined.

Section RenderUiReturns.

Variables (ui : operator) (key_prefix : str).

Lemma incl_keys_render_nested (key : str)
  (nested_dict : list (str * component)) (user_selections : dict selection) :
  incl (keys user_selections)
    (keys (render_nested ui key_prefix key nested_dict user_selections)).
Proof.
  unfold render_nested. revert user_selections.
  induction nested_dict as [|[nk nv] nd IH]; intros sel k0 H; [exact H|].
  cbn [fold_left fst snd]. apply IH. destruct nv; [|exact H].
  now apply In_keys_setitem.
Qed.

Lemma In_keys_setitem_same {V : Type} (d : dict V) (k : str) (v : V) :
  In k (keys (setitem k v d)).
Proof.
  destruct (in_dec (list_eq_dec ascii_dec) k (keys d)) as [Hin|Hin].
  - now apply In_keys_setitem.
  - rewrite setitem_fresh by assumption. unfold keys. rewrite map_app.
    apply in_or_app. right. now left.
Qed.

Lemma render_ui_goes_on (component_dict : list (str * component)) :
  picks_offered ui ->
  Forall selectable component_dict ->
  exists user_selections,
    render_ui ui key_prefix component_dict = Some user_selections
    /\ incl (keys component_dict) (keys user_selections).
Proof.
  intros Hui. unfold render_ui.
  match goal with |- context [fold_left ?f _ _] => set (step := f) end.
  assert (G : forall es sel0,
             Forall selectable es ->
             exists sel,
               fold_left step es (Some sel0) = Some sel
               /\ incl (keys sel0) (keys sel) /\ incl (keys es) (keys sel)).
  { induction es as [|[key value] es IH]; intros sel0 Hes.
    - exists sel0. repeat split; [apply incl_refl | intros k []].
    - inversion Hes as [|? ? Hkv Hes']; subst.
      cbn [fold_left]. unfold step at 2. cbn [fst snd].
      unfold selectable in Hkv. cbn [snd] in Hkv.
      destruct value as [values|value].
      + destruct (IH (setitem key (Many (multiselect ui
                        (key_prefix ++ s#"multiselect-" ++ key) values)) sel0)
                    Hes') as (sel & E & H0 & H1).
        exists sel. split; [exact E|]. split.
        * intros k0 Hk0. now apply H0, In_keys_setitem.
        * intros k0 [<-|Hk0]; [apply H0, In_keys_setitem_same | now apply H1].
      + destruct Hkv as [Hne Hwn].
        destruct value as [|[o1 v1] value']; [congruence|].
        destruct (Hui (key_prefix ++ s#"selectbox-" ++ key) o1 (keys value'))
          as (o & Eo & Hin).
        change (o1 :: keys value') with (keys ((o1, v1) :: value')) in Eo, Hin.
        rewrite Eo.
        destruct (In_getitem _ _ Hin) as [v Ev]. rewrite Ev.
        pose proof (getitem_In _ _ _ Ev) as Hv.
        rewrite forallb_forall in Hwn. specialize (Hwn _ Hv). cbn [snd] in Hwn.
        destruct v as [values|nested_dict]; [discriminate|].
        destruct (IH (render_nested ui key_prefix key nested_dict
                        (setitem key (Single o) sel0)) Hes')
          as (sel & E & H0 & H1).
        exists sel. split; [exact E|]. split.
        * intros k0 Hk0.
          now apply H0, incl_keys_render_nested, In_keys_setitem.
        * intros k0 [<-|Hk0]; [|now apply H1].
          apply H0, incl_keys_render_nested, In_keys_setitem_same. }
  intros Hes. destruct (G component_dict [] Hes) as (sel & E & _ & H1).
  now exists sel.
Qed.

End RenderUiReturns.

(** ** The keys of the widgets *)

Section WidgetKeys.

Lemma eqb_sym (a b : str) : eqb a b = eqb b a.
Proof.
  destruct (eqb_spec a b) as [->|H]; [now rewrite eqb_refl|].
  symmetry. apply eqb_neq. congruence.
Qed.

Lemma fresh_keys_app (l1 l2 used : list str) :
  fresh_keys (l1 ++ l2) used
  = fresh_keys l1 used && fresh_keys l2 (rev l1 ++ used).
Proof.
  revert used. induction l1 as [|key l1 IH]; intros used; [reflexivity|].
  cbn [app fresh_keys rev]. rewrite IH, <- app_assoc. cbn [app].
  now rewrite andb_assoc.
Qed.

Lemma forallb_not_mem_cons (key : str) (l used : list str) :
  forallb (fun x => negb (mem x (key :: used))) l
  = negb (mem key l) && forallb (fun x => negb (mem x used)) l.
Proof.
  induction l as [|x l IH]; [reflexivity|].
  cbn [forallb]. rewrite IH.
  change (mem x (key :: used)) with (eqb x key || mem x used).
  change (mem key (x :: l)) with (eqb key x || mem key l).
  rewrite (eqb_sym key x).
  destruct (eqb x key), (mem x used), (mem key l); reflexivity.
Qed.

(** The keys asked for are all granted exactly when they are pairwise
    distinct and none of them is in use. *)
Lemma fresh_keys_distinct (l used : list str) :
  fresh_keys l used
  = distinct l && forallb (fun key => negb (mem key used)) l.
Proof.
  revert used. induction l as [|key l IH]; intros used; [reflexivity|].
  cbn [fresh_keys distinct forallb]. rewrite IH, forallb_not_mem_cons.
  destruct (mem key used), (mem key l), (distinct l); reflexivity.
Qed.

Variables (ui : operator) (key_prefix : str).

(** The inner loop draws its multiselects when their keys are granted and
    raises otherwise; when it returns, its selections are those of
    [render_nested]. *)
Lemma render_nested_checked_spec (key : str)
  (nested_dict : list (str * component)) (user_selections : dict selection)
  (used : list str) :
  render_nested_checked ui key_prefix key nested_dict user_selections used
  = if fresh_keys (nested_widget_keys key_prefix key nested_dict) used
    then Some (render_nested ui key_prefix key nested_dict user_selections,
               rev (nested_widget_keys key_prefix key nested_dict) ++ used)
    else None.
Proof.
  unfold render_nested_checked, render_nested, nested_widget_keys.
  match goal with |- context [fold_left ?f _ (Some _)] => set (step := f) end.
  assert (N : forall nd, fold_left step nd None = None)
    by (induction nd as [|nkv nd IH]; [reflexivity | exact IH]).
  revert user_selections used.
  induction nested_dict as [|[nk nv] nd IH]; intros sel used; [reflexivity|].
  cbn [fold_left flat_map]. unfold step at 2. cbn [fst snd].
  destruct nv as [values|deeper]; [|apply IH].
  cbn [app fresh_keys rev]. unfold register.
  destruct (mem (key_prefix ++ s#"multiselect-" ++ key ++ s#"-" ++ nk) used);
    [apply N|].
  cbn [negb andb]. rewrite IH, <- app_assoc. reflexivity.
Qed.

(** [render_ui] with its widget keys followed raises where [render_ui]
    does and where a key is asked for twice or is in use already;
    otherwise it returns the selections of [render_ui] and has put the keys
    of its widgets in use. *)
Lemma render_ui_checked_spec (component_dict : list (str * component))
  (used : list str) :
  render_ui_checked ui key_prefix component_dict used
  = match render_ui ui key_prefix component_dict with
    | None => None
    | Some user_selections =>
        if fresh_keys (widget_keys ui key_prefix component_dict) used
        then Some (user_selections,
                   rev (widget_keys ui key_prefix component_dict) ++ used)
        else None
    end.
Proof.
  unfold render_ui_checked, render_ui, widget_keys.
  match goal with
  | |- fold_left ?f _ _ = match fold_left ?g _ _ with _ => _ end =>
      set (step := f); set (step' := g)
  end.
  assert (N : forall es, fold_left step es None = None)
    by (induction es as [|kv es IH]; [reflexivity | exact IH]).
  assert (N' : forall es, fold_left step' es None = None)
    by (induction es as [|kv es IH]; [reflexivity | exact IH]).
  generalize (@nil (str * selection)) as sel0. revert used.
  induction component_dict as [|[key value] es IH]; intros used sel0;
    [reflexivity|].
  cbn [fold_left flat_map]. unfold step at 2, step' at 2. cbn [fst snd].
  pose proof (IH used) as IH0.
  set (rest := flat_map (category_widget_keys ui key_prefix) es) in *.
  clear IH0. unfold category_widget_keys. cbn [fst snd].
  destruct value as [values|value].
  - cbn [app fresh_keys rev]. unfold register.
    destruct (mem (key_prefix ++ s#"multiselect-" ++ key) used).
    + rewrite N. now destruct (fold_left step' es _).
    + cbn [negb andb]. rewrite IH, <- app_assoc. reflexivity.
  - cbn [app fresh_keys rev]. unfold register.
    destruct (mem (key_prefix ++ s#"selectbox-" ++ key) used).
    + rewrite N. now destruct (fold_left step' es _).
    + cbn [negb andb].
      destruct (selectbox ui (key_prefix ++ s#"selectbox-" ++ key)
                  (keys value)) as [selected_option|];
        [|now rewrite N, N'].
      destruct (getitem selected_option value) as [[values|nested_dict]|];
        [now rewrite N, N' | | now rewrite N, N'].
      rewrite render_nested_checked_spec, fresh_keys_app.
      match goal with
      | |- context [fresh_keys (nested_widget_keys _ _ _) ?u] =>
          destruct (fresh_keys
                      (nested_widget_keys key_prefix key nested_dict) u)
      end.
      * cbn [andb]. rewrite IH, rev_app_distr, <- !app_assoc.
        reflexivity.
      * rewrite N. now destruct (fold_left step' es _).
Qed.

End WidgetKeys.

(** X3. On components that [collect_keys] accepts and in which every
    category with variants has at least one, and with an operator whose
    selectboxes answer with one of the options shown, [render_ui] returns
    when the keys of the widgets it draws are pairwise distinct and none
    of them is in use, with a selection for every category and the keys of
    its widgets put in use; when two of its widgets ask for one key, or a
    key is in use already, it raises. *)
Theorem render_ui_returns (ui : operator) (key_prefix : str)
  (component_dict : list (str * component)) (used : list str) :
  picks_offered ui ->
  well_nested (Nested component_dict) = true ->
  offers_variants component_dict = true ->
  let drawn := widget_keys ui key_prefix component_dict in
  let granted :=
    distinct drawn && forallb (fun key => negb (mem key used)) drawn in
  (granted = true ->
   exists user_selections,
     render_ui_checked ui key_prefix component_dict used
     = Some (user_selections, rev drawn ++ used)
     /\ incl (keys component_dict) (keys user_selections))
  /\ (granted = false ->
      render_ui_checked ui key_prefix component_dict used = None).
Proof.
  intros Hui Hwn Hov. cbv zeta.
  rewrite render_ui_checked_spec, fresh_keys_distinct.
  destruct (render_ui_goes_on ui key_prefix component_dict Hui)
    as (sel & E & Hincl).
  { apply Forall_forall. intros [key value] Hkv. unfold selectable.
    cbn [snd]. cbn [well_nested] in Hwn. rewrite forallb_forall in Hwn.
    unfold offers_variants in Hov. rewrite forallb_forall in Hov.
    specialize (Hwn _ Hkv). specialize (Hov _ Hkv). cbn [snd] in Hwn, Hov.
    destruct value as [values|value]; [exact I|].
    split; [|exact Hwn]. now destruct value. }
  rewrite E. split; intros ->; [now exists sel | reflexivity].
Qed.

Lemma render_ui_returns_witness :
  exists user_selections,
    render_ui_checked (operator_with [] true) [] deep_components []
    = Some (user_selections, [s#"selectbox-A"])
    /\ incl (keys deep_components) (keys user_selections).
Proof.
  exact (proj1
           (render_ui_returns (operator_with [] true) [] deep_components []
              (fun key o os =>
                 ex_intro _ o (conj eq_refl (or_introl eq_refl)))
              eq_refl eq_refl)
           eq_refl).
Defined.

(** A category named [a-b] and the sub-category [b] of a category [a] ask
    for one key: the selections are never returned. *)
Example render_ui_hyphen_collision :
  widget_keys (operator_with [] true) [] hyphen_components
  = [s#"multiselect-a-b"; s#"selectbox-a"; s#"multiselect-a-b"]
  /\ render_ui_checked (operator_with [] true) [] hyphen_components [] = None.
Proof. split; reflexivity. Qed.

(** ** The values typed for an uncovered placeholder *)

Section SplitFacts.

Variable sep : ascii.

Lemma split_cons_sep (s : str) : split sep (sep :: s) = [] :: split sep s.
Proof. cbn [split]. now rewrite Ascii.eqb_refl. Qed.

Lemma split_cons_other (c : ascii) (s : str) :
  c <> sep ->
  split sep (c :: s)
  = match split sep s with
    | [] => [[c]]
    | w :: ws => (c :: w) :: ws
    end.
Proof.
  intros Hc. cbn [split].
  destruct (Ascii.eqb_spec c sep); [contradiction | reflexivity].
Qed.

Lemma split_nonempty (s : str) : split sep s <> [].
Proof.
  induction s as [|c s IH]; [discriminate|].
  destruct (ascii_dec c sep) as [->|Hc].
  - rewrite split_cons_sep. discriminate.
  - rewrite split_cons_other by assumption.
    destruct (split sep s); discriminate.
Qed.

Lemma join_split (s : str) : join sep (split sep s) = s.
Proof.
  induction s as [|c s IH]; [reflexivity|].
  pose proof (split_nonempty s) as Hne.
  destruct (ascii_dec c sep) as [->|Hc].
  - rewrite split_cons_sep.
    destruct (split sep s) as [|w ws]; [congruence|].
    cbn [join app flat_map] in *. now rewrite IH.
  - rewrite split_cons_other by assumption.
    destruct (split sep s) as [|w ws]; [congruence|].
    cbn [join app] in *. now rewrite IH.
Qed.

Lemma split_no_sep (s : str) : Forall (fun w => ~ In sep w) (split sep s).
Proof.
  induction s as [|c s IH]; [repeat constructor; tauto|].
  destruct (ascii_dec c sep) as [->|Hc].
  - rewrite split_cons_sep. constructor; [tauto | exact IH].
  - rewrite split_cons_other by assumption.
    destruct (split sep s) as [|w ws];
      [repeat constructor; simpl; intuition congruence|].
    inversion IH as [|? ? Hw Hws]; subst. constructor; [|exact Hws].
    simpl. intuition congruence.
Qed.

Lemma length_split (s : str) :
  length (split sep s) = S (count_occ ascii_dec s sep).
Proof.
  induction s as [|c s IH]; [reflexivity|].
  destruct (ascii_dec c sep) as [->|Hc].
  - rewrite split_cons_sep, count_occ_cons_eq by reflexivity.
    simpl. now rewrite IH.
  - rewrite split_cons_other, count_occ_cons_neq by assumption.
    rewrite <- IH. now destruct (split sep s).
Qed.

Lemma split_app_no_sep (w s : str) :
  ~ In sep w ->
  split sep (w ++ s)
  = match split sep s with
    | [] => [w]
    | x :: xs => (w ++ x) :: xs
    end.
Proof.
  pose proof (split_nonempty s) as Hne.
  induction w as [|c w IH]; intros Hw.
  - cbn [app]. now destruct (split sep s).
  - cbn [app]. rewrite split_cons_other by (simpl in Hw; intuition congruence).
    rewrite IH by (simpl in Hw; tauto).
    destruct (split sep s); [congruence | reflexivity].
Qed.

Lemma split_join (l : list str) :
  l <> [] -> Forall (fun w => ~ In sep w) l -> split sep (join sep l) = l.
Proof.
  intros Hne Hl. destruct l as [|x rest]; [congruence|]. clear Hne.
  revert x Hl. induction rest as [|y rest IH]; intros x Hl;
    inversion Hl as [|? ? Hx Hrest]; subst.
  - cbn [join flat_map]. rewrite app_nil_r.
    rewrite <- (app_nil_r x) at 1. rewrite split_app_no_sep by assumption.
    cbn [split]. now rewrite app_nil_r.
  - cbn [join flat_map]. rewrite split_app_no_sep by assumption.
    cbn [app]. rewrite split_cons_sep. specialize (IH y Hrest).
    cbn [join] in IH. rewrite IH. now rewrite app_nil_r.
Qed.

End SplitFacts.

(** X4. The text typed for an uncovered placeholder is cut at its line
    breaks: there is always at least one value (one more than there are
    line breaks, an empty line giving the empty value), no value holds a
    line break, and the values joined by line breaks are the text again.
    Conversely every non-empty list of values without line breaks is what
    some text is cut into. *)
Theorem typed_values_round_trip (user_input : str) :
  let user_input_options := split newline user_input in
  user_input_options <> []
  /\ length user_input_options = S (count_occ ascii_dec user_input newline)
  /\ Forall (fun value => ~ In newline value) user_input_options
  /\ join newline user_input_options = user_input
  /\ (forall values,
        values <> [] ->
        Forall (fun value => ~ In newline value) values ->
        split newline (join newline values) = values).
Proof.
  cbv zeta. split; [apply split_nonempty|]. split; [apply length_split|].
  split; [apply split_no_sep|]. split; [apply join_split|].
  apply split_join.
Qed.

Section AskUncovered.

Variables (ui : operator) (area_prefix : str).

Lemma ask_uncovered_cons (placeholder : str) (rest : list str)
  (user_selections : dict selection) :
  ask_uncovered ui area_prefix (placeholder :: rest) user_selections
  = ask_uncovered ui area_prefix rest
      (setitem placeholder
         (Many (split newline (text_area ui (area_prefix ++ placeholder))))
         user_selections).
Proof. reflexivity. Qed.

Lemma getitem_ask_uncovered (uncovered_placeholders : list str)
  (user_selections : dict selection) (k : str) :
  getitem k
    (ask_uncovered ui area_prefix uncovered_placeholders user_selections)
  = if mem k uncovered_placeholders
    then Some (Many (split newline (text_area ui (area_prefix ++ k))))
    else getitem k user_selections.
Proof.
  revert user_selections.
  induction uncovered_placeholders as [|ph rest IH]; intros sel;
    [reflexivity|].
  rewrite ask_uncovered_cons, IH. cbn [mem].
  destruct (mem k rest); [now rewrite orb_true_r|]. rewrite orb_false_r.
  destruct (eqb_spec k ph) as [->|Hk].
  - apply getitem_setitem_same.
  - now apply getitem_setitem_other.
Qed.

Lemma eqb_app (p a b : str) : eqb (p ++ a) (p ++ b) = eqb a b.
Proof.
  induction p as [|c p IH]; [reflexivity|].
  cbn [app eqb]. rewrite IH. destruct (Ascii.eqb_spec c c); [reflexivity|].
  congruence.
Qed.

Lemma mem_map_app (p x : str) (l : list str) :
  mem (p ++ x) (map (app p) l) = mem x l.
Proof.
  induction l as [|y l IH]; [reflexivity|].
  cbn [map mem]. now rewrite eqb_app, IH.
Qed.

Lemma distinct_map_app (p : str) (l : list str) :
  distinct (map (app p) l) = distinct l.
Proof.
  induction l as [|x l IH]; [reflexivity|].
  cbn [map distinct]. now rewrite mem_map_app, IH.
Qed.

(** The loop draws its text areas when their keys are granted and raises
    otherwise; when it returns, its selections are those of
    [ask_uncovered]. *)
Lemma ask_uncovered_checked_spec (uncovered_placeholders : list str)
  (user_selections : dict selection) (used : list str) :
  ask_uncovered_checked ui area_prefix uncovered_placeholders
    user_selections used
  = if fresh_keys (map (app area_prefix) uncovered_placeholders) used
    then Some (ask_uncovered ui area_prefix uncovered_placeholders
                 user_selections,
               rev (map (app area_prefix) uncovered_placeholders) ++ used)
    else None.
Proof.
  unfold ask_uncovered_checked, ask_uncovered.
  match goal with |- context [fold_left ?f _ (Some _)] => set (step := f) end.
  assert (N : forall l, fold_left step l None = None)
    by (induction l as [|ph l IH]; [reflexivity | exact IH]).
  revert user_selections used.
  induction uncovered_placeholders as [|ph rest IH]; intros sel used;
    [reflexivity|].
  cbn [fold_left map fresh_keys rev]. unfold step at 2. unfold register.
  destruct (mem (area_prefix ++ ph) used); [apply N|].
  cbn [negb andb]. rewrite IH, <- app_assoc. reflexivity.
Qed.

End AskUncovered.

(** X5. The loop over the uncovered placeholders returns exactly when no
    placeholder comes twice in its list and no key of its text areas is in
    use; a placeholder that occurs twice in the template asks for one key
    twice, and the loop raises. When the loop returns, each uncovered
    placeholder is a key of the selections, with the values cut from its
    own text area, a list that is never empty; the selections under all
    other keys are as they were; and the keys of the text areas are in
    use. *)
Theorem asked_values (ui : operator) (area_prefix : str)
  (uncovered_placeholders : list str) (user_selections : dict selection)
  (used : list str) :
  let drawn := map (app area_prefix) uncovered_placeholders in
  let granted :=
    distinct uncovered_placeholders
    && forallb (fun key => negb (mem key used)) drawn in
  let run :=
    ask_uncovered_checked ui area_prefix uncovered_placeholders
      user_selections used in
  (granted = false <-> run = None)
  /\ (forall asked used',
        run = Some (asked, used') ->
        granted = true
        /\ used' = rev drawn ++ used
        /\ (forall placeholder,
              In placeholder uncovered_placeholders ->
              exists value values,
                getitem placeholder asked = Some (Many (value :: values))
                /\ value :: values
                   = split newline
                       (text_area ui (area_prefix ++ placeholder)))
        /\ (forall k,
              ~ In k uncovered_placeholders ->
              getitem k asked = getitem k user_selections)
        /\ (distinct (keys user_selections) = true ->
            distinct (keys asked) = true)).
Proof.
  cbv zeta.
  rewrite ask_uncovered_checked_spec, fresh_keys_distinct, distinct_map_app.
  destruct (distinct uncovered_placeholders
            && forallb (fun key => negb (mem key used))
                 (map (app area_prefix) uncovered_placeholders)).
  2: { split; [tauto | discriminate]. }
  split; [split; discriminate|].
  intros asked used' E. injection E as <- <-.
  split; [reflexivity|]. split; [reflexivity|]. split; [|split].
  - intros ph Hph. rewrite getitem_ask_uncovered.
    apply mem_In in Hph. rewrite Hph.
    pose proof (split_nonempty newline (text_area ui (area_prefix ++ ph))).
    destruct (split newline _) as [|value values]; [congruence|].
    now exists value, values.
  - intros k Hk. rewrite getitem_ask_uncovered.
    destruct (mem k uncovered_placeholders) eqn:E; [|reflexivity].
    apply mem_In in E. contradiction.
  - intros Hd. apply distinct_NoDup. apply distinct_NoDup in Hd.
    revert user_selections Hd.
    induction uncovered_placeholders as [|ph rest IH]; intros sel Hd;
      [exact Hd|].
    rewrite ask_uncovered_cons. now apply IH, setitem_NoDup.
Qed.

(** A template that names an uncovered placeholder twice: the second text
    area asks for the key of the first. *)
Example repeated_placeholder_raises :
  uncovered_placeholders [] s#"[[X]] and [[X]]" = [s#"X"; s#"X"]
  /\ ask_uncovered_checked (operator_with s#"a" true) s#"placeholder_"
       [s#"X"; s#"X"] [] []
     = None
  /\ ask_uncovered_checked (operator_with s#"a" true) s#"placeholder_"
       [s#"X"] [] []
     = Some ([(s#"X", Many [s#"a"])], [s#"placeholder_X"]).
Proof. repeat split. Qed.

(** ** Templates without the token of a key *)

Section Absent.

Lemma occursb_nil (p : str) :
  occursb p [] = match strip_prefix p [] with Some _ => true | None => false end.
Proof. reflexivity. Qed.

Lemma occursb_cons (p : str) (c : ascii) (s : str) :
  occursb p (c :: s)
  = match strip_prefix p (c :: s) with
    | Some _ => true
    | None => occursb p s
    end.
Proof. reflexivity. Qed.

Lemma occursb_spec (p s : str) : occursb p s = true <-> occurs p s.
Proof.
  split.
  - induction s as [|c s IH].
    + rewrite occursb_nil.
      destruct (strip_prefix p []) as [r|] eqn:E; [|discriminate].
      apply strip_prefix_Some in E. intros _. now exists [], r.
    + rewrite occursb_cons.
      destruct (strip_prefix p (c :: s)) as [r|] eqn:E.
      * apply strip_prefix_Some in E. intros _. now exists [], r.
      * intros H. destruct (IH H) as (a & b & ->). now exists (c :: a), b.
  - intros (a & b & ->). induction a as [|c a IH].
    + cbn [app]. destruct (p ++ b) as [|c s] eqn:E.
      * rewrite occursb_nil. rewrite <- E at 1.
        now rewrite (strip_prefix_app p b).
      * rewrite occursb_cons. rewrite <- E at 1.
        now rewrite (strip_prefix_app p b).
    + cbn [app]. rewrite occursb_cons. now destruct (strip_prefix p _).
Qed.

Lemma replace_absent (p new s : str) :
  occursb p s = false -> replace p new s = s.
Proof.
  destruct p as [|o old']; [now destruct s|]. unfold replace.
  induction s as [|c s IH]; intros H; [apply replace_scan_equation_1|].
  rewrite occursb_cons in H. rewrite replace_scan_cons.
  destruct (strip_prefix (o :: old') (c :: s)); [discriminate|].
  now rewrite IH.
Qed.

End Absent.

(** X6. Whatever the template is made of, when it holds the token of none
    of the keys of the combination the filled prompt is the template itself,
    character for character. *)
Theorem prompt_filled_without_tokens (prompt_template : str)
  (combination : dict str) :
  forallb
    (fun kv => negb (occursb (placeholder_key (fst kv)) prompt_template))
    combination = true ->
  prompt_filled prompt_template combination = prompt_template.
Proof.
  induction combination as [|[k v] combination IH]; intros H; [reflexivity|].
  cbn [forallb fst] in H. apply andb_true_iff in H as [Hk H].
  apply negb_true_iff in Hk.
  rewrite prompt_filled_cons, replace_absent by assumption. now apply IH.
Qed.

Lemma prompt_filled_without_tokens_witness :
  prompt_filled s#"Write [about [[Topic]] in [ [Style]]"
    [(s#"Style", s#"[[Topic]]"); (s#"Tone", s#"dry")]
  = s#"Write [about [[Topic]] in [ [Style]]".
Proof.
  exact (prompt_filled_without_tokens s#"Write [about [[Topic]] in [ [Style]]"
           [(s#"Style", s#"[[Topic]]"); (s#"Tone", s#"dry")] eq_refl).
Defined.

(** ** The prompt preview *)

Section Preview.

Lemma prompt_preview_steps (prompt_template : str)
  (user_selections : dict selection) :
  prompt_preview prompt_template user_selections
  = match first_items user_selections with
    | Some items => Some (prompt_filled prompt_template items)
    | None => None
    end.
Proof.
  unfold prompt_preview.
  match goal with |- context [fold_left ?f _ _] => set (step := f) end.
  assert (Hnone : forall es, fold_left step es None = None)
    by (induction es; [reflexivity | assumption]).
  revert prompt_template.
  induction user_selections as [|[k v] rest IH]; intros t; [reflexivity|].
  cbn [fold_left first_items]. unfold step at 2. cbn [fst snd].
  destruct v as [s|[|x l]]; cbn [first_choice].
  - rewrite IH. now destruct (first_items rest).
  - apply Hnone.
  - rewrite IH. now destruct (first_items rest).
Qed.

Lemma first_items_None (user_selections : dict selection) :
  first_items user_selections = None <-> In (Many []) (values user_selections).
Proof.
  induction user_selections as [|[k v] rest IH]; cbn [first_items values map].
  - split; [discriminate | intros []].
  - fold (values rest). cbn [snd]. destruct v as [s|[|x l]]; cbn [first_choice].
    + destruct (first_items rest).
      * split; [discriminate|]. intros [H|H]; [discriminate|].
        now apply IH in H.
      * split; [right; now apply IH | reflexivity].
    + split; [now left | reflexivity].
    + destruct (first_items rest).
      * split; [discriminate|]. intros [H|H]; [discriminate|].
        now apply IH in H.
      * split; [right; now apply IH | reflexivity].
Qed.

Lemma first_items_keys (user_selections : dict selection) (items : dict str) :
  first_items user_selections = Some items ->
  keys items = keys user_selections
  /\ Forall2 (fun x pool => exists tl, pool = x :: tl) (values items)
       (map iter_selection (values (map normal_item user_selections))).
Proof.
  revert items.
  induction user_selections as [|[k v] rest IH]; intros items E.
  - injection E as <-. split; [reflexivity | constructor].
  - cbn [first_items] in E.
    destruct (first_choice v) as [x|] eqn:Ex; [|discriminate].
    destruct (first_items rest) as [items'|]; [|discriminate].
    injection E as <-. destruct (IH _ eq_refl) as [Hk Hv].
    split; [simpl; now rewrite Hk|].
    cbn [values map snd normal_item]. constructor; [|exact Hv].
    destruct v as [s|[|y l]]; cbn [first_choice] in Ex;
      try discriminate; injection Ex as <-; cbn [normal iter_selection];
      eexists; reflexivity.
Qed.

Lemma product_head (A : Type) (heads : list A) (pools : list (list A)) :
  Forall2 (fun x pool => exists tl, pool = x :: tl) heads pools ->
  exists rest, product pools = heads :: rest.
Proof.
  induction 1 as [|x pool heads pools [tl ->] _ [rest IH]].
  - now exists [].
  - rewrite product_cons, IH. cbn [flat_map map app].
    eexists. reflexivity.
Qed.

End Preview.

(** X7. The prompt preview of the generation form raises exactly when one
    of the selections is an empty list, as after the operator has cleared a
    multiselect; the text areas, whose lists are never empty, and the
    selectboxes cannot make it raise. *)
Theorem prompt_preview_raises_iff (prompt_template : str)
  (user_selections : dict selection) :
  prompt_preview prompt_template user_selections = None
  <-> In (Many []) (values user_selections).
Proof.
  rewrite prompt_preview_steps, <- first_items_None.
  destruct (first_items user_selections); split; congruence.
Qed.

(** X8. When the prompt preview of the generation form is shown and
    "Generate" is pressed on the same selections, the prompt previewed is
    the first prompt generated. *)
Theorem preview_is_first_prompt (prompt_template : str)
  (user_selections : dict selection) (prompt : str) :
  user_selections <> [] ->
  distinct (keys user_selections) = true ->
  prompt_preview prompt_template user_selections = Some prompt ->
  exists first rest,
    combinations (fix_structure user_selections) = Some (first :: rest)
    /\ prompt_filled prompt_template first = prompt.
Proof.
  intros Hne Hd E. rewrite prompt_preview_steps in E.
  destruct (first_items user_selections) as [items|] eqn:Ei; [|discriminate].
  injection E as <-. destruct (first_items_keys _ _ Ei) as [Hk Hv].
  rewrite combinations_combine.
  - rewrite fix_structure_map by assumption.
    destruct (product_head _ _ _ Hv) as [rest Er]. rewrite Er.
    cbn [map]. eexists. eexists. split; [reflexivity|].
    rewrite keys_normal_items, <- Hk, combine_keys_values. reflexivity.
  - rewrite fix_structure_map by assumption.
    destruct user_selections; [congruence | discriminate].
  - apply fix_structure_distinct.
Qed.

Lemma preview_is_first_prompt_witness :
  exists first rest,
    combinations
      (fix_structure
         [(s#"Style", Single s#"Formal"); (s#"Tone", Many [s#"dry"; s#"warm"])])
    = Some (first :: rest)
    /\ prompt_filled s#"[[Style]], [[Tone]]" first = s#"Formal, dry".
Proof.
  exact (preview_is_first_prompt s#"[[Style]], [[Tone]]"
           [(s#"Style", Single s#"Formal"); (s#"Tone", Many [s#"dry"; s#"warm"])]
           s#"Formal, dry" ltac:(discriminate) eq_refl eq_refl).
Defined.

(** ** What the scanner finds *)

Section Found.

Lemma occurs_after (p a s : str) : occurs p s -> occurs p (a ++ s).
Proof.
  intros (x & y & ->). exists (a ++ x), y. now rewrite app_assoc.
Qed.

Lemma length_placeholder_key (n : str) :
  length (placeholder_key n) = length n + 4.
Proof. unfold placeholder_key. simpl. rewrite length_app. simpl. lia. Qed.

Lemma findall_found (t : str) :
  Forall
    (fun n => occurs (placeholder_key n) t /\ ~ In newline n /\ closes_first n)
    (findall t)
  /\ list_sum (map (fun n => length n + 4) (findall t)) <= length t.
Proof.
  remember (length t) as len eqn:Hlen. revert t Hlen.
  induction len as [len IH] using lt_wf_ind. intros [|c s] Hlen.
  - rewrite findall_equation_1. split; [constructor | simpl; lia].
  - rewrite findall_cons.
    destruct (match_at (c :: s)) as [[n r]|] eqn:E.
    + pose proof (match_at_shorter _ E) as Hshort.
      apply match_at_spec in E as [[Et Hn] Hnl].
      destruct (IH (length r) ltac:(lia) r eq_refl) as [Hall Hsum].
      split.
      * constructor.
        -- split; [|now split]. exists [], r. exact Et.
        -- eapply Forall_impl; [|exact Hall].
           intros m (Hocc & Hm). split; [|exact Hm].
           rewrite Et. now apply occurs_after.
      * cbn [map]. subst len. rewrite Et, length_app,
          length_placeholder_key. unfold list_sum in *. cbn [fold_right].
        lia.
    + destruct (IH (length s) ltac:(subst len; simpl; lia) s eq_refl)
        as [Hall Hsum].
      split.
      * eapply Forall_impl; [|exact Hall].
        intros m (Hocc & Hm). split; [|exact Hm].
        now apply (occurs_after _ [c]).
      * subst len. simpl. lia.
Qed.

End Found.

(** X9. Every name the scanner returns stands in the template between
    [[[] and []]], holds no line break and ends at the first closing pair;
    the tokens found do not overlap, so the names together with their four
    brackets each are no longer than the template. *)
Theorem scanned_names_are_tokens (template : str) :
  Forall
    (fun name =>
       occurs (placeholder_key name) template
       /\ ~ In newline name /\ closes_first name)
    (findall template)
  /\ list_sum (map (fun name => length name + 4) (findall template))
     <= length template.
Proof. apply findall_found. Qed.

(** ** The list shared by the two forms *)

Section SharedList.

Lemma load_extend (a : nat) (more : list str) (h : store) :
  load a (extend a more h) = load a h ++ more.
Proof. unfold extend. apply load_store_at. Qed.

Lemma news_form_store (data : config) (ui : operator) (env : providers)
  (t : str) (h : store) :
  well_nested (Nested (Components data)) = true ->
  load collected_keys_default (fst (news_from_trends_ui data ui env t h))
  = load collected_keys_default h
    ++ taxonomy_keys (Nested (Components data)) ++ news_names.
Proof.
  intros Hwn. unfold news_from_trends_ui.
  destruct (collect_keys_ok _ collected_keys_default h Hwn) as [R L].
  destruct (collect_keys (Nested (Components data)) collected_keys_default h)
    as [h1 r]. cbn [fst snd] in R, L. subst r.
  assert (E : load collected_keys_default
                (extend collected_keys_default
                   [s#"SourceArticleTitle"; s#"SourceArticleDescription";
                    s#"SourceArticleUrl"]
                   (extend collected_keys_default [s#"SeedPhrase"] h1))
              = load collected_keys_default h
                ++ taxonomy_keys (Nested (Components data)) ++ news_names).
  { rewrite !load_extend, L, <- !app_assoc. reflexivity. }
  repeat match goal with
         | |- context [match ?x with _ => _ end] => destruct x
         end; exact E.
Qed.

Lemma generation_form_store (data : config) (ui : operator) (t : str)
  (h : store) :
  well_nested (Nested (Components data)) = true ->
  load collected_keys_default (fst (automatic_news_generation_ui data ui t h))
  = load collected_keys_default h ++ taxonomy_keys (Nested (Components data)).
Proof.
  intros Hwn. unfold automatic_news_generation_ui.
  destruct (collect_keys_ok _ collected_keys_default h Hwn) as [R L].
  destruct (collect_keys (Nested (Components data)) collected_keys_default h)
    as [h1 r]. cbn [fst snd] in R, L. subst r.
  repeat match goal with
         | |- context [match ?x with _ => _ end] => destruct x
         end; exact L.
Qed.

End SharedList.

(** X10. Whatever the operator does, a run of the news form leaves the
    default list of [collect_keys] longer by the keys of the taxonomy and
    the four names [SeedPhrase], [SourceArticleTitle],
    [SourceArticleDescription] and [SourceArticleUrl], and a run of the
    generation form leaves it longer by the keys of the taxonomy. In the
    script, where the generation form follows the news form, the list of
    known keys of the generation form therefore holds the four names of the
    news form and every key twice. *)
Theorem forms_grow_shared_list (data : config) (ui : operator)
  (env : providers) (t t' : str) (h : store) :
  well_nested (Nested (Components data)) = true ->
  load collected_keys_default (fst (news_from_trends_ui data ui env t h))
  = load collected_keys_default h
    ++ taxonomy_keys (Nested (Components data)) ++ news_names
  /\ load collected_keys_default
       (fst (automatic_news_generation_ui data ui t h))
     = load collected_keys_default h
       ++ taxonomy_keys (Nested (Components data))
  /\ load collected_keys_default
       (fst (automatic_news_generation_ui data ui t'
               (fst (news_from_trends_ui data ui env t store_after_def))))
     = taxonomy_keys (Nested (Components data)) ++ news_names
       ++ taxonomy_keys (Nested (Components data)).
Proof.
  intros Hwn. split; [now apply news_form_store|].
  split; [now apply generation_form_store|].
  rewrite generation_form_store, news_form_store by assumption.
  cbn [load store_after_def app]. now rewrite <- app_assoc.
Qed.

Lemma forms_grow_shared_list_witness :
  load collected_keys_default
    (fst (automatic_news_generation_ui seeded_config (operator_with [] false)
            []
            (fst (news_from_trends_ui seeded_config (operator_with [] false)
                    no_providers [] store_after_def))))
  = [s#"ISOLanguage"; s#"SeedPhrase"; s#"SourceArticleTitle";
     s#"SourceArticleDescription"; s#"SourceArticleUrl"; s#"ISOLanguage"].
Proof.
  exact (proj2 (proj2 (forms_grow_shared_list seeded_config
                         (operator_with [] false) no_providers [] []
                         store_after_def eq_refl))).
Defined.

(** ** The text areas the news form reads *)

Section NewsAreas.

Lemma ask_uncovered_ext (ui ui' : operator) (area_prefix : str)
  (uncovered_placeholders : list str) (user_selections : dict selection) :
  (forall placeholder,
      In placeholder uncovered_placeholders ->
      text_area ui' (area_prefix ++ placeholder)
      = text_area ui (area_prefix ++ placeholder)) ->
  ask_uncovered ui' area_prefix uncovered_placeholders user_selections
  = ask_uncovered ui area_prefix uncovered_placeholders user_selections.
Proof.
  revert user_selections.
  induction uncovered_placeholders as [|ph rest IH]; intros sel H;
    [reflexivity|].
  rewrite !ask_uncovered_cons, (H ph) by now left.
  apply IH. intros ph' Hin. apply H. now right.
Qed.

Lemma uncovered_not_known (known found : list str) (ph : str) :
  In ph (uncovered known found) -> ~ In ph known.
Proof.
  unfold uncovered. intros H Hin. apply filter_In in H as [_ H].
  apply negb_true_iff in H. apply mem_In in Hin. congruence.
Qed.

End NewsAreas.

(** X11. The news form never asks for the values of [SeedPhrase],
    [SourceArticleTitle], [SourceArticleDescription] or [SourceArticleUrl]:
    whatever template is in the field, what the operator would type into
    the text areas of these four names changes nothing of the run. *)
Theorem news_form_never_asks_news_names (data : config) (ui : operator)
  (env : providers) (user_prompt_template : str) (h : store)
  (typed : str -> str) :
  (forall key,
      ~ In key (map (app (NEWS_ID_PREFIX ++ s#"_placeholder_")) news_names) ->
      typed key = text_area ui key) ->
  news_from_trends_ui data (with_text_area ui typed) env user_prompt_template h
  = news_from_trends_ui data ui env user_prompt_template h.
Proof.
  intros Htyped. unfold news_from_trends_ui.
  destruct (collect_keys (Nested (Components data)) collected_keys_default h)
    as [h1 [a|]]; [|reflexivity].
  change (render_ui (with_text_area ui typed)) with (render_ui ui).
  destruct (render_ui ui NEWS_ID_PREFIX (Components data)) as [sel|];
    [|reflexivity].
  rewrite (ask_uncovered_ext ui (with_text_area ui typed)); [reflexivity|].
  intros ph Hph. apply uncovered_not_known in Hph.
  rewrite !load_extend in Hph. cbn [with_text_area text_area].
  apply Htyped. intros Hin. apply in_map_iff in Hin as (name & E & Hname).
  apply app_inv_head in E. subst name. apply Hph.
  rewrite <- app_assoc. apply in_or_app. right. exact Hname.
Qed.

Lemma news_form_never_asks_news_names_witness :
  news_from_trends_ui seeded_config
    (with_text_area (operator_with s#"cats" false)
       (fun key =>
          if eqb key (NEWS_ID_PREFIX ++ s#"_placeholder_" ++ s#"SeedPhrase")
          then s#"dogs" else s#"cats"))
    no_providers s#"[[SeedPhrase]] [[Q]]" store_after_def
  = news_from_trends_ui seeded_config (operator_with s#"cats" false)
      no_providers s#"[[SeedPhrase]] [[Q]]" store_after_def.
Proof.
  apply (news_form_never_asks_news_names seeded_config
           (operator_with s#"cats" false) no_providers
           s#"[[SeedPhrase]] [[Q]]" store_after_def).
  intros key Hkey.
  destruct (eqb_spec key
              (NEWS_ID_PREFIX ++ s#"_placeholder_" ++ s#"SeedPhrase"))
    as [->|_]; [|reflexivity].
  exfalso. apply Hkey. left. reflexivity.
Defined.

(** ** Retrieval of the articles *)

(** X12. The retrieval loop of the news form raises exactly when there is a
    trend to look up and the selections give no language, [ISOLanguage]
    being absent or selected as an empty list or an empty string. When it
    returns, it returns the articles the provider has for the trends, in the
    order of the trends, at most one per trend. *)
Theorem retrieval_raises_iff (env : providers)
  (user_selections : dict selection) (trends_list : list str) :
  (retrieve_news env user_selections trends_list = None
   <-> trends_list <> [] /\ iso_language user_selections = None)
  /\ (forall lang,
        iso_language user_selections = Some lang ->
        retrieve_news env user_selections trends_list
        = Some (flat_map
                  (fun news_keyword =>
                     match get_news env news_keyword lang with
                     | Some news => [news]
                     | None => []
                     end)
                  trends_list))
  /\ (forall news_articles,
        retrieve_news env user_selections trends_list = Some news_articles ->
        length news_articles <= length trends_list).
Proof.
  split; [|split].
  - induction trends_list as [|kw rest IH]; cbn [retrieve_news].
    + split; [discriminate | intros [H _]; congruence].
    + destruct (iso_language user_selections) as [lang|].
      * destruct (retrieve_news env user_selections rest) as [arts|].
        -- split; [discriminate | intros [_ H]; discriminate].
        -- split; [|reflexivity]. intros _.
           destruct (proj1 IH eq_refl) as [_ H]. discriminate.
      * split; [|reflexivity]. intros _. split; [discriminate | reflexivity].
  - intros lang E.
    induction trends_list as [|kw rest IH]; cbn [retrieve_news flat_map];
      [reflexivity|].
    rewrite E, IH. now destruct (get_news env kw lang).
  - induction trends_list as [|kw rest IH]; cbn [retrieve_news];
      intros arts E.
    + injection E as <-. simpl. lia.
    + destruct (iso_language user_selections) as [lang|]; [|discriminate].
      destruct (retrieve_news env user_selections rest) as [arts'|];
        [|discriminate].
      specialize (IH _ eq_refl). injection E as <-.
      destruct (get_news env kw lang); simpl; lia.
Qed.

(** ** Normalizer and expander together *)

Section Normalized.

Lemma choices_normal (v : selection) :
  length (iter_selection (normal v)) = choices v.
Proof. now destruct v. Qed.

End Normalized.

(** X13. The expander run on the normalized selections, as the forms run
    it, returns for every non-empty dictionary of selections as many
    combinations as the product of the numbers of values, a string selected
    in a selectbox counting for one value (it is not taken apart into its
    characters), and every combination has the keys of the selections in
    their order. *)
Theorem normalized_combinations (user_selections : dict selection) :
  user_selections <> [] ->
  distinct (keys user_selections) = true ->
  exists combos,
    combinations (fix_structure user_selections) = Some combos
    /\ length combos
       = fold_right (fun v n => choices v * n) 1 (values user_selections)
    /\ Forall (fun c => keys c = keys user_selections) combos.
Proof.
  intros Hne Hd. eexists. split.
  - apply combinations_combine; [|apply fix_structure_distinct].
    rewrite fix_structure_map by assumption.
    destruct user_selections; [congruence | discriminate].
  - rewrite fix_structure_map by assumption. rewrite keys_normal_items.
    split.
    + rewrite length_map, product_length. clear.
      induction user_selections as [|[k v] rest IH]; [reflexivity|].
      unfold values in *. cbn [map snd normal_item fold_right] in *.
      now rewrite IH, choices_normal.
    + apply Forall_forall. intros c Hc.
      apply in_map_iff in Hc as (v & <- & Hv).
      apply In_product, Forall2_length in Hv.
      apply keys_combine. unfold keys, values in *.
      rewrite !length_map in *. lia.
Qed.

Lemma normalized_combinations_witness :
  exists combos,
    combinations
      (fix_structure
         [(s#"Style", Single s#"Formal"); (s#"Tone", Many [s#"dry"; s#"warm"])])
    = Some combos
    /\ length combos = 2.
Proof.
  destruct (normalized_combinations
              [(s#"Style", Single s#"Formal");
               (s#"Tone", Many [s#"dry"; s#"warm"])]
              ltac:(discriminate) eq_refl)
    as (combos & E & Hlen & _).
  exists combos. split; [exact E | exact Hlen].
Defined.

(** The expander run on the selections as they are takes a string apart. *)
Example combinations_of_a_string :
  combinations [(s#"Style", Single s#"ab")]
  = Some [[(s#"Style", s#"a")]; [(s#"Style", s#"b")]].
Proof. reflexivity. Qed.

(** ** A run of the news form without trends *)

Section NoTrend.

Lemma In_values_setitem {V : Type} (d : dict V) (k : str) (v : V) :
  In v (values (setitem k v d)).
Proof.
  induction d as [|[k' v'] d IH]; simpl; [now left|].
  destruct (eqb k k'); simpl; [now left | now right].
Qed.

Lemma combinations_empty_axis (iter_selections : dict selection) :
  In (Many []) (values iter_selections) ->
  combinations iter_selections = Some [].
Proof.
  intros H. unfold combinations, unzip_items.
  destruct iter_selections as [|kv rest] eqn:E; [destruct H|].
  rewrite <- E in *. rewrite product_empty; [reflexivity|].
  apply Exists_exists. exists []. split; [|reflexivity].
  apply in_map_iff. now exists (Many []).
Qed.

Lemma merge_step_nil (based_on_real_news : bool)
  (news_articles : list (dict str)) :
  merge_step based_on_real_news [] news_articles = [].
Proof. now destruct based_on_real_news. Qed.

End NoTrend.

(** X14. A run of the news form for which there is no trend, the provider
    returning none or the operator having selected no topic, hands no
    prompt to the generator, whatever the other selections are: it raises or
    it ends with the empty list of prompts. *)
Theorem no_trend_no_prompt (data : config) (ui : operator) (env : providers)
  (user_prompt_template : str) (h : store) :
  trends_of_run data ui env = [] ->
  snd (news_from_trends_ui data ui env user_prompt_template h) = None
  \/ snd (news_from_trends_ui data ui env user_prompt_template h) = Some [].
Proof.
  intros Ht. unfold news_from_trends_ui, trends_of_run in *.
  destruct (collect_keys _ _ h) as [h1 [a|]]; [|now left].
  destruct (render_ui ui NEWS_ID_PREFIX (Components data)) as [sel|];
    [|now left].
  destruct (button ui _); [|now right].
  match goal with
  | |- context [setitem s#"SeedPhrase" (Many ?trends) _] =>
      assert (E : trends = [])
        by (destruct (checkbox ui (NEWS_ID_PREFIX ++ s#"_automated_trends"));
            exact Ht)
  end.
  rewrite E.
  rewrite (combinations_empty_axis _ (In_values_setitem _ _ _)).
  match goal with
  | |- context [match ?x with Some _ => _ | None => _ end] => destruct x
  end; [right | now left].
  cbn [snd]. now rewrite merge_step_nil.
Qed.

Lemma no_trend_no_prompt_witness :
  snd (news_from_trends_ui seeded_config (operator_with s#"cats" true)
         no_providers s#"[[Q]]" store_after_def) = None
  \/ snd (news_from_trends_ui seeded_config (operator_with s#"cats" true)
            no_providers s#"[[Q]]" store_after_def) = Some [].
Proof.
  exact (no_trend_no_prompt seeded_config (operator_with s#"cats" true)
           no_providers s#"[[Q]]" store_after_def eq_refl).
Defined.

(** ** The record handed to save_fragment *)

Section Fragment.

Lemma getitem_map_values {V W : Type} (f : V -> W) (d : dict V) (k : str) :
  getitem k (map (fun kv => (fst kv, f (snd kv))) d)
  = option_map f (getitem k d).
Proof.
  induction d as [|[k' v'] d IH]; [reflexivity|].
  cbn [map getitem fst snd]. now destruct (eqb k k').
Qed.

Lemma keys_map_values {V W : Type} (f : V -> W) (d : dict V) :
  keys (map (fun kv => (fst kv, f (snd kv))) d) = keys d.
Proof. unfold keys. rewrite map_map. reflexivity. Qed.

End Fragment.

Ltac other_name :=
  rewrite getitem_setitem_other by (vm_compute; discriminate).

(** X15. The record saved for a generated prompt holds the identifier, the
    generated text, the origin [Machine], the model, the filled prompt, the
    flag and the date under the seven provenance names, also when the
    combination has a placeholder of one of these names, whose value is
    then lost; under every other key it holds the value of the combination.
    Its keys are distinct when those of the combination are. *)
Theorem saved_fragment_fields (combination : dict str)
  (fragment_id generated_fragment : str) (user_generator_model : option str)
  (prompt : str) (is_fake : bool) (today : nat) :
  let fragment :=
    machine_fragment combination fragment_id generated_fragment
      user_generator_model prompt is_fake today in
  getitem s#"FragmentID" fragment = Some (FStr fragment_id)
  /\ getitem s#"Content" fragment = Some (FStr generated_fragment)
  /\ getitem s#"Origin" fragment = Some (FStr s#"Machine")
  /\ getitem s#"MachineModel" fragment
     = Some (field_of_choice user_generator_model)
  /\ getitem s#"MachinePrompt" fragment = Some (FStr prompt)
  /\ getitem s#"IsFake" fragment = Some (FBool is_fake)
  /\ getitem s#"CreationDate" fragment = Some (FDate today)
  /\ (forall k,
        ~ In k provenance_names ->
        getitem k fragment = option_map FStr (getitem k combination))
  /\ (distinct (keys combination) = true -> distinct (keys fragment) = true).
Proof.
  cbv zeta. unfold machine_fragment.
  repeat split.
  - repeat other_name. apply getitem_setitem_same.
  - repeat other_name. apply getitem_setitem_same.
  - repeat other_name. apply getitem_setitem_same.
  - repeat other_name. apply getitem_setitem_same.
  - repeat other_name. apply getitem_setitem_same.
  - repeat other_name. apply getitem_setitem_same.
  - apply getitem_setitem_same.
  - intros k Hk. unfold provenance_names in Hk. cbn [In] in Hk.
    rewrite !getitem_setitem_other by (intros ->; tauto).
    apply getitem_map_values.
  - intros Hd. apply distinct_NoDup. apply distinct_NoDup in Hd.
    repeat apply setitem_NoDup. now rewrite keys_map_values.
Qed.

(** A placeholder named like a provenance field. *)
Example saved_fragment_collision :
  getitem s#"Origin"
    (machine_fragment [(s#"Origin", s#"Reuters")] s#"id" s#"text"
       (Some s#"gpt") s#"prompt" true 0)
  = Some (FStr s#"Machine").
Proof. reflexivity. Qed.

(** ** Substitution on templates of text and tokens *)

Section WellFormed.

(** The filled prompt of a template of text and tokens, by the lemmas on
    one replacement. *)
Lemma prompt_filled_render (pieces : list piece) (combination : dict str) :
  forallb piece_ok pieces = true ->
  forallb item_ok combination = true ->
  prompt_filled (render pieces) combination
  = render (map (fill combination) pieces).
Proof.
  revert pieces.
  induction combination as [|[k v] combination IH]; intros pieces Hok Hc.
  - cbn [prompt_filled fold_left]. f_equal.
    rewrite <- (map_id pieces) at 1. apply map_ext. now intros [s|n].
  - cbn [forallb] in Hc. apply andb_true_iff in Hc as [Hkv Hc].
    unfold item_ok in Hkv. cbn [fst snd] in Hkv.
    apply andb_true_iff in Hkv as [Hk Hv].
    apply negb_has in Hk. apply negb_has in Hv.
    rewrite prompt_filled_cons, replace_render by assumption.
    rewrite IH by (try apply fill_ok; assumption).
    now rewrite fill_fill.
Qed.

Lemma fill_pieces_ok (combination : dict str) (pieces : list piece) :
  forallb piece_ok pieces = true ->
  forallb item_ok combination = true ->
  forallb piece_ok (map (fill combination) pieces) = true.
Proof.
  intros Hok Hc. apply forallb_forall. intros p Hp.
  apply in_map_iff in Hp as (q & <- & Hq).
  rewrite forallb_forall in Hok. specialize (Hok _ Hq).
  destruct q as [s|n]; [exact Hok|]. cbn [fill].
  destruct (getitem n combination) as [v|] eqn:E; [|exact Hok].
  apply getitem_In in E. rewrite forallb_forall in Hc.
  specialize (Hc _ E). unfold item_ok in Hc. cbn [snd] in Hc.
  apply andb_true_iff in Hc as [_ Hv]. exact Hv.
Qed.

Lemma fill_idempotent (combination : dict str) (p : piece) :
  fill combination (fill combination p) = fill combination p.
Proof.
  destruct p as [s|n]; [reflexivity|]. cbn [fill].
  destruct (getitem n combination) eqn:E; [reflexivity|].
  cbn [fill]. now rewrite E.
Qed.

End WellFormed.

(** X16. On a template of literal text without opening bracket and of
    tokens with bracket-free names, with keys free of closing brackets and
    values free of opening brackets: the filled prompt does not depend on
    the order of the items of the combination, only on the value each key
    has; and filling the filled prompt once more changes nothing. *)
Theorem substitution_order_free (pieces : list piece)
  (combination combination' : dict str) :
  forallb piece_ok pieces = true ->
  forallb item_ok combination = true ->
  forallb item_ok combination' = true ->
  (forall k, getitem k combination = getitem k combination') ->
  prompt_filled (render pieces) combination
  = prompt_filled (render pieces) combination'
  /\ prompt_filled (prompt_filled (render pieces) combination) combination
     = prompt_filled (render pieces) combination.
Proof.
  intros Hok Hc Hc' Hsame. split.
  - rewrite !prompt_filled_render by assumption. f_equal.
    apply map_ext. intros [s|n]; [reflexivity|]. cbn [fill].
    now rewrite Hsame.
  - rewrite (prompt_filled_render pieces) by assumption.
    rewrite prompt_filled_render
      by (try apply fill_pieces_ok; assumption).
    f_equal. rewrite map_map. apply map_ext. intros p.
    apply fill_idempotent.
Qed.

Lemma substitution_order_free_witness :
  prompt_filled s#"[[X]] met [[Y]]" [(s#"X", s#"Alice"); (s#"Y", s#"Bob")]
  = prompt_filled s#"[[X]] met [[Y]]" [(s#"Y", s#"Bob"); (s#"X", s#"Alice")].
Proof.
  refine (proj1 (substitution_order_free
                   [Hole s#"X"; Text s#" met "; Hole s#"Y"]
                   [(s#"X", s#"Alice"); (s#"Y", s#"Bob")]
                   [(s#"Y", s#"Bob"); (s#"X", s#"Alice")]
                   eq_refl eq_refl eq_refl _)).
  intros k. cbn [getitem].
  destruct (eqb_spec k s#"X") as [->|_]; [reflexivity|].
  now destruct (eqb k s#"Y").
Defined.

Section LeftOver.

Lemma one_line_fill (combination : dict str) (pieces : list piece) :
  forallb one_line pieces = true ->
  forallb one_line (map (fill combination) pieces) = true.
Proof.
  intros H. apply forallb_forall. intros p Hp.
  apply in_map_iff in Hp as (q & <- & Hq).
  rewrite forallb_forall in H. specialize (H _ Hq).
  destruct q as [s|n]; [reflexivity|]. cbn [fill].
  now destruct (getitem n combination).
Qed.

Lemma mem_keys_getitem {V : Type} (d : dict V) (k : str) :
  mem k (keys d) = match getitem k d with Some _ => true | None => false end.
Proof.
  induction d as [|[k' v'] d IH]; [reflexivity|].
  cbn [keys map fst mem getitem]. fold (keys d).
  now destruct (eqb k k').
Qed.

Lemma holes_fill (combination : dict str) (pieces : list piece) :
  holes (map (fill combination) pieces)
  = uncovered (keys combination) (holes pieces).
Proof.
  induction pieces as [|p pieces IH]; [reflexivity|].
  destruct p as [s|n]; cbn [map fill holes flat_map app].
  - exact IH.
  - fold (holes pieces). fold (holes (map (fill combination) pieces)).
    cbn [uncovered filter]. fold (uncovered (keys combination) (holes pieces)).
    rewrite mem_keys_getitem.
    destruct (getitem n combination); cbn [negb holes flat_map app];
      [exact IH | now rewrite <- IH].
Qed.

End LeftOver.

(** X17. Scanner and substitution agree on templates of text and one-line
    tokens (keys free of closing brackets, values free of opening
    brackets): the placeholders the scanner finds in a filled prompt are
    the placeholders it finds in the template less the keys of the
    combination, in the same order. In particular no token is left when
    every name found is a key. *)
Theorem placeholders_left_in_prompt (pieces : list piece)
  (combination : dict str) :
  forallb piece_ok pieces = true ->
  forallb one_line pieces = true ->
  forallb item_ok combination = true ->
  findall (prompt_filled (render pieces) combination)
  = uncovered (keys combination) (findall (render pieces)).
Proof.
  intros Hok Hline Hc.
  rewrite prompt_filled_render by assumption.
  rewrite findall_render
    by (try apply fill_pieces_ok; try apply one_line_fill; assumption).
  rewrite findall_render by assumption. apply holes_fill.
Qed.

Lemma placeholders_left_in_prompt_witness :
  findall
    (prompt_filled s#"[[Style]] on [[Topic]], [[Style]]"
       [(s#"Style", s#"Formal"); (s#"Tone", s#"dry")])
  = uncovered [s#"Style"; s#"Tone"]
      (findall s#"[[Style]] on [[Topic]], [[Style]]").
Proof.
  exact (placeholders_left_in_prompt
           [Hole s#"Style"; Text s#" on "; Hole s#"Topic"; Text s#", ";
            Hole s#"Style"]
           [(s#"Style", s#"Formal"); (s#"Tone", s#"dry")]
           eq_refl eq_refl eq_refl).
Defined.
